(** * Strands Up: the word-selection and validation engine of [GameBoard]

    A shallow embedding of the game logic of the React component
    [GameBoard] (cell clicks, adjacency, word validation against the
    placement table, found words and locked cells), of the reset effect
    that runs when a new board is mounted, and of the puzzle request of
    [GameContainer] / [generateGame].

    Modelling conventions.
    - A [Position] is a pair of integers.  Grid indices are array indices
      and placement coordinates are JSON numbers typed [number]; both are
      taken to be integers, printed by a template literal in decimal.
    - Strings are [string]; [toLowerCase] is the ASCII case mapping.
    - The [Set<string>] values [foundWords] and [foundPaths] are [gset string].
    - React state is passed explicitly: one event handler call is one
      function from the state of the current render to the next state.
      A handler that throws (a [TypeError] on [board[row][col]] with a row
      outside the grid) returns [None]; the state is then left as it was,
      since no setter has been called before the throw.
    - [setTimeout] appends to the list [timers] of pending callbacks. *)

From Stdlib Require Import ZArith String Ascii DecimalString DecimalZ.
From stdpp Require Import gmap strings list.

#[local] Set Warnings "-clear-no-such-hyp".

Open Scope string_scope.
Open Scope list_scope.
Open Scope Z_scope.

(** ** Strings as the code uses them *)

Module Str.

(** [`${n}`] for an integer-valued number. *)
Definition numberToString (n : Z) : string :=
  NilEmpty.string_of_int (Z.to_int n).

(** [Array.prototype.join]. *)
Definition join (sep : string) (l : list string) : string :=
  String.concat sep l.

(** [String.prototype.split] with a one-character separator: the empty
    string splits into one empty piece. *)
Fixpoint split (sep : ascii) (s : string) : list string :=
  match s with
  | EmptyString => [EmptyString]
  | String c s' =>
      if Ascii.eqb c sep then EmptyString :: split sep s'
      else match split sep s' with
           | [] => [String c EmptyString]
           | piece :: pieces => String c piece :: pieces
           end
  end.

Definition lowerChar (c : ascii) : ascii :=
  let n := nat_of_ascii c in
  if ((65 <=? n)%nat && (n <=? 90)%nat)%bool then ascii_of_nat (n + 32) else c.

(** [String.prototype.toLowerCase], on ASCII text. *)
Fixpoint toLowerCase (s : string) : string :=
  match s with
  | EmptyString => EmptyString
  | String c s' => String (lowerChar c) (toLowerCase s')
  end.

(** Does the character occur in the string? *)
Fixpoint occurs (c : ascii) (s : string) : bool :=
  match s with
  | EmptyString => false
  | String d s' => Ascii.eqb d c || occurs c s'
  end.

(** Two characters are the same letter up to ASCII case. *)
Definition sameLetter (c d : ascii) : Prop := lowerChar c = lowerChar d.

(** Case-insensitive equality, character by character. *)
Fixpoint equalIgnoringCase (s t : string) : Prop :=
  match s, t with
  | EmptyString, EmptyString => True
  | String c s', String d t' => sameLetter c d /\ equalIgnoringCase s' t'
  | _, _ => False
  end.

End Str.

(** ** Data model (types/game.ts) *)

Definition Position : Type := Z * Z.

Record WordPlacement := mkWordPlacement {
  word : string;
  path : list Position
}.

Record PlacementInfo := mkPlacementInfo {
  pi_spangram : WordPlacement;
  pi_words : list WordPlacement
}.

Record Board := mkBoard {
  grid : list (list string);
  words : list string;
  spangram : string;
  theme : string;
  placementInfo : PlacementInfo
}.

(** ** GameBoard state *)

Inductive MessageType := success | info.

Record Message := mkMessage {
  text : string;
  type : option MessageType
}.

Record State := mkState {
  selectedCells : list Position;
  foundWords : gset string;
  foundPaths : gset string;
  message : Message;
  timers : list (nat * Message)
}.

(** The values of the [useState] initialisers. *)
Definition noMessage : Message := mkMessage "" None.

Definition initialState : State :=
  mkState [] ∅ ∅ noMessage [].

(** ** Helpers of the component *)

(** The key [`${r},${c}`] under which a cell is stored in [foundPaths]. *)
Definition cellKey (p : Position) : string :=
  Str.numberToString (fst p) +:+ "," +:+ Str.numberToString (snd p).

Definition isAdjacent (pos1 pos2 : Position) : bool :=
  let '(row1, col1) := pos1 in
  let '(row2, col2) := pos2 in
  let rowDiff := Z.abs (row1 - row2) in
  let colDiff := Z.abs (col1 - col2) in
  (rowDiff <=? 1) && (colDiff <=? 1) && negb ((rowDiff =? 0) && (colDiff =? 0)).

Definition pathToString (p : list Position) : string :=
  Str.join "|" (map cellKey p).

(** [correctPathStr.split('|').reverse().join('|')]. *)
Definition reversedPathString (s : string) : string :=
  Str.join "|" (rev (Str.split "|" s)).

(** [a[i]] on an array: [None] is [undefined]. *)
Definition index {A} (l : list A) (i : Z) : option A :=
  if i <? 0 then None else l !! Z.to_nat i.

(** [board[row][col]]: the outer [None] is the [TypeError] of indexing
    [undefined]; the inner [None] is the value [undefined]. *)
Definition cellAt (board : list (list string)) (p : Position) : option (option string) :=
  match index board (fst p) with
  | None => None
  | Some r => Some (index r (snd p))
  end.

(** [cells.map(([row, col]) => board[row][col])], which throws as soon as
    one row is missing. *)
Fixpoint lettersAt (board : list (list string)) (cells : list Position)
  : option (list (option string)) :=
  match cells with
  | [] => Some []
  | p :: rest =>
      match cellAt board p with
      | None => None
      | Some l =>
          match lettersAt board rest with
          | None => None
          | Some ls => Some (l :: ls)
          end
      end
  end.

(** [.join('')]: [undefined] elements are printed as the empty string. *)
Definition selectedWord (board : list (list string)) (cells : list Position)
  : option string :=
  match lettersAt board cells with
  | None => None
  | Some ls => Some (Str.join "" (map (default "") ls))
  end.

Definition allPlacements (g : Board) : list WordPlacement :=
  mkWordPlacement (spangram g) (path (pi_spangram (placementInfo g)))
  :: map (fun w => mkWordPlacement (word w) (path w)) (pi_words (placementInfo g)).

(** The predicate handed to [allPlacements.find]. *)
Definition placementMatches (selected pathStr : string) (pl : WordPlacement) : bool :=
  let correctPathStr := pathToString (path pl) in
  String.eqb (Str.toLowerCase (word pl)) (Str.toLowerCase selected)
  && (String.eqb pathStr correctPathStr
      || String.eqb pathStr (reversedPathString correctPathStr)).

(** The words of all placements, as a set. *)
Definition placedWords (g : Board) : gset string :=
  list_to_set (map word (allPlacements g)).

(** [foundPlacement], for a selected word that has been computed. *)
Definition findPlacement (g : Board) (selected : string) (cells : list Position)
  : option WordPlacement :=
  List.find (placementMatches selected (pathToString cells)) (allPlacements g).

(** ** Word validation *)

Definition spangramMessage : Message :=
  mkMessage "Congratulations! You found the spangram!" (Some success).

(** [`You found "${word}"!`]; the character 034 is the double quote. *)
Definition wordMessage (w : string) : Message :=
  mkMessage ("You found " +:+ String "034" (w +:+ String "034" "!")) (Some success).

Definition successMessage (g : Board) (w : string) : Message :=
  if String.eqb w (spangram g) then spangramMessage else wordMessage w.

Definition tryAgainMessage : Message := mkMessage "Try again!" (Some info).

Definition allFoundMessage : Message :=
  mkMessage "Congratulations! You found all the words!" (Some success).

(** The delay handed to [setTimeout], in milliseconds. *)
Definition completionDelay : nat := 1000.

Definition setSelectedCells (cells : list Position) (st : State) : State :=
  mkState cells (foundWords st) (foundPaths st) (message st) (timers st).

Definition setMessage (m : Message) (st : State) : State :=
  mkState (selectedCells st) (foundWords st) (foundPaths st) m (timers st).

(** [cells.forEach(([r, c]) => newFoundPaths.add(`${r},${c}`))]. *)
Definition addCells (cells : list Position) (paths : gset string) : gset string :=
  foldl (fun acc p => {[cellKey p]} ∪ acc) paths cells.

(** The guard [foundPlacement && !foundWords.has(foundPlacement.word)]:
    the placement when the first branch is taken. *)
Definition newFind (st : State) (foundPlacement : option WordPlacement)
  : option WordPlacement :=
  match foundPlacement with
  | Some pl => if decide (word pl ∈ foundWords st) then None else Some pl
  | None => None
  end.

(** The first branch of [checkForWord]: mark the word and its cells as
    found, show the success message, and schedule the completion notice
    when every placement has been found. *)
Definition markFound (g : Board) (st : State) (cells : list Position)
    (pl : WordPlacement) : State :=
  let newFoundWords := {[word pl]} ∪ foundWords st in
  let newFoundPaths := addCells cells (foundPaths st) in
  mkState (selectedCells st) newFoundWords newFoundPaths
    (successMessage g (word pl))
    (if Nat.eqb (size newFoundWords) (length (allPlacements g))
     then timers st ++ [(completionDelay, allFoundMessage)]
     else timers st).

Definition checkForWord (g : Board) (st : State) (cells : list Position)
  : option State :=
  match selectedWord (grid g) cells with
  | None => None
  | Some selected =>
      let foundPlacement := findPlacement g selected cells in
      let st1 :=
        match newFind st foundPlacement with
        | Some pl => markFound g st cells pl
        | None =>
            if (0 <? length cells)%nat then setMessage tryAgainMessage st else st
        end in
      Some (setSelectedCells [] st1)
  end.

(** ** Cell clicks *)

Definition isLocked (st : State) (p : Position) : bool :=
  bool_decide (cellKey p ∈ foundPaths st).

Definition samePosition (p q : Position) : bool :=
  (fst p =? fst q) && (snd p =? snd q).

Definition handleCellClick (g : Board) (st : State) (row col : Z) : option State :=
  let clickedPos : Position := (row, col) in
  match last (selectedCells st) with
  | Some lastCell =>
      if samePosition lastCell clickedPos then checkForWord g st (selectedCells st)
      else if negb (isAdjacent lastCell clickedPos) || isLocked st clickedPos
      then Some (setSelectedCells [] st)
      else Some (setSelectedCells (selectedCells st ++ [clickedPos]) st)
  | None => Some (setSelectedCells (selectedCells st ++ [clickedPos]) st)
  end.

(** The [onClick] of a grid cell:
    [!foundPaths.has(key) && handleCellClick(rowIndex, colIndex)]. *)
Definition onClick (g : Board) (st : State) (p : Position) : option State :=
  if isLocked st p then Some st else handleCellClick g st (fst p) (snd p).

(** One click gesture as a state transition: a handler that throws has
    called no setter, so the state of the render stays. *)
Definition selectCell (g : Board) (st : State) (p : Position) : State :=
  default st (onClick g st p).

Definition selectCells (g : Board) (st : State) (clicks : list Position) : State :=
  foldl (selectCell g) st clicks.

(** The callback scheduled by [setTimeout], when it fires. *)
Definition fireTimer (m : Message) (st : State) : State := setMessage m st.

(** ** Progress view *)

Definition isComplete (g : Board) (st : State) : bool :=
  Nat.eqb (size (foundWords st)) (length (words g) + 1).

Definition isSelected (st : State) (p : Position) : bool :=
  existsb (samePosition p) (selectedCells st).

(** ** New game *)

(** The effect with dependency [board]: it runs when the component is
    mounted and whenever the [board] prop is replaced. *)
Definition resetEffect (st : State) : State :=
  mkState [] ∅ ∅ (message st) (timers st).

(** ** GameContainer and the puzzle request *)

(** A thrown value: an [Error] with its message, or anything else. *)
Inductive Thrown := ErrorObject (msg : string) | OtherValue.

(** What the HTTP exchange of [generateGame] can do. *)
Inductive Exchange :=
| FetchRejected (err : Thrown)
| NotOk (statusText : string) (detail : option string)
| BodyRejected (err : Thrown)
| Ok (b : Board).

Definition failedPrefix : string := "Failed to generate game: ".

(** [errorData?.detail || fallback]: an absent or empty detail is falsy. *)
Definition orElse (detail : option string) (fallback : string) : string :=
  match detail with
  | Some d => if String.eqb d "" then fallback else d
  | None => fallback
  end.

(** [generateGame] of the deployed service module: [inl] is a rejected
    promise. *)
Definition generateGame (x : Exchange) : Thrown + Board :=
  match x with
  | FetchRejected e => inl e
  | NotOk statusText detail =>
      inl (ErrorObject (orElse detail (failedPrefix +:+ statusText)))
  | BodyRejected e => inl e
  | Ok b => inr b
  end.

(** [generateGame] of the local-development service module. *)
Definition generateGameLocal (x : Exchange) : Thrown + Board :=
  match x with
  | FetchRejected e => inl e
  | NotOk statusText _ => inl (ErrorObject (failedPrefix +:+ statusText))
  | BodyRejected e => inl e
  | Ok b => inr b
  end.

Record Container := mkContainer {
  apiKey : string;
  board : option Board;
  error : option string;
  isLoading : bool
}.

(** The container together with the state of the mounted [GameBoard]
    ([None] while no board is rendered). *)
Record App := mkApp {
  container : Container;
  game : option State
}.

(** [err instanceof Error ? err.message : 'Failed to generate game']. *)
Definition errorText (err : Thrown) : string :=
  match err with
  | ErrorObject msg => msg
  | OtherValue => "Failed to generate game"
  end.

(** [handleGenerateGame] up to the [await]; the flag tells whether the
    request is made. *)
Definition beginGenerate (a : App) : App * bool :=
  let c := container a in
  if String.eqb (apiKey c) "" then
    (mkApp (mkContainer (apiKey c) (board c) (Some "Please enter your API key")
              (isLoading c)) (game a), false)
  else
    (mkApp (mkContainer (apiKey c) (board c) None true) (game a), true).

(** [handleGenerateGame] after the [await]: [setBoard] re-renders
    [GameBoard] with a new [board] prop, which runs the reset effect on
    the kept state (or on the initial state of a first mount). *)
Definition finishGenerate (a : App) (result : Thrown + Board) : App :=
  let c := container a in
  match result with
  | inr newBoard =>
      mkApp (mkContainer (apiKey c) (Some newBoard) (error c) false)
        (Some (resetEffect (default initialState (game a))))
  | inl err =>
      mkApp (mkContainer (apiKey c) (board c) (Some (errorText err)) false) (game a)
  end.

Definition handleGenerateGame (gen : Exchange -> Thrown + Board)
    (a : App) (x : Exchange) : App :=
  let '(a1, requested) := beginGenerate a in
  if requested then finishGenerate a1 (gen x) else a1.

(** ** The puzzle of the end-to-end scenario *)

Definition catsGrid : list (list string) :=
  [ ["C"; "A"; "T"; "S"]; ["O"; "X"; "X"; "X"];
    ["X"; "X"; "X"; "X"]; ["X"; "X"; "X"; "X"] ].

Definition catPath : list Position := [(0, 0); (0, 1); (0, 2)].

Definition catsPath : list Position := [(0, 0); (0, 1); (0, 2); (0, 3)].

Definition cats : Board :=
  mkBoard catsGrid ["CAT"] "CATS" "pets"
    (mkPlacementInfo (mkWordPlacement "CATS" catsPath) [mkWordPlacement "CAT" catPath]).

(** The state after CAT has been found. *)
Definition catFound : State :=
  selectCells cats initialState [(0, 0); (0, 1); (0, 2); (0, 2)].

(** A puzzle whose two placements do not overlap, so that both can be
    found by clicking. *)
Definition hiPath : list Position := [(0, 0); (0, 1)].

Definition okPath : list Position := [(1, 0); (1, 1)].

Definition hiOk : Board :=
  mkBoard [ ["H"; "I"]; ["O"; "K"] ] ["OK"] "HI" "greetings"
    (mkPlacementInfo (mkWordPlacement "HI" hiPath) [mkWordPlacement "OK" okPath]).

(** HI has been found and the cells of OK are selected. *)
Definition okSelected : State :=
  selectCells hiOk initialState [(0, 0); (0, 1); (0, 1); (1, 0); (1, 1)].

(** ** Rendering *)

(** The positions for which the JSX renders a grid cell, in document
    order: [board.map((row, rowIndex) => row.map((cell, colIndex) => ...))]. *)
Definition renderedPositions (board : list (list string)) : list Position :=
  concat (imap (fun rowIndex row =>
                  imap (fun colIndex _ => (Z.of_nat rowIndex, Z.of_nat colIndex)) row)
               board).

(** The [data-position] attributes of the rendered cells. *)
Definition dataPositions (board : list (list string)) : list string :=
  map cellKey (renderedPositions board).

Record CellStyle := mkCellStyle {
  width : string;
  height : string;
  display : string;
  alignItems : string;
  justifyContent : string;
  borderRadius : string;
  cursor : string;
  transition : string;
  backgroundColor : string
}.

Definition withBackground (color : string) (s : CellStyle) : CellStyle :=
  mkCellStyle (width s) (height s) (display s) (alignItems s) (justifyContent s)
    (borderRadius s) (cursor s) (transition s) color.

Definition getCellStyle (st : State) (row col : Z) : CellStyle :=
  let isSelected := existsb (fun cell => samePosition cell (row, col)) (selectedCells st) in
  let isFound := isLocked st (row, col) in
  let baseStyle :=
    mkCellStyle "40px" "40px" "flex" "center" "center" "4px"
      (if isFound then "not-allowed" else "pointer") "all 0.2s" "transparent" in
  if isFound then withBackground "rgba(72, 187, 120, 0.2)" baseStyle
  else if isSelected then withBackground "transparent" baseStyle
  else baseStyle.

(** [{message.text && <div>...</div>}]: the message box is rendered for a
    non-empty text. *)
Definition messageShown (st : State) : bool :=
  negb (String.eqb (text (message st)) "").

(** ** Notions used to state the properties *)

(** The eight cells around a cell. *)
Definition neighbours (p : Position) : list Position :=
  let '(r, c) := p in
  [ (r - 1, c - 1); (r - 1, c); (r - 1, c + 1);
    (r, c - 1); (r, c + 1);
    (r + 1, c - 1); (r + 1, c); (r + 1, c + 1) ].

(** Every cell of the list is adjacent to the next one. *)
Fixpoint isChain (cells : list Position) : bool :=
  match cells with
  | p :: rest =>
      match rest with
      | q :: _ => isAdjacent p q && isChain rest
      | [] => true
      end
  | [] => true
  end.

(** The cell has a letter: its row and its column are inside the grid. *)
Definition inGrid (board : list (list string)) (p : Position) : Prop :=
  exists letter, cellAt board p = Some (Some letter).

(** The letters of the grid along a path, joined in path order: the word
    that the path spells. *)
Definition spells (g : Board) (cells : list Position) (w : string) : Prop :=
  selectedWord (grid g) cells = Some w.

(** The single completion notice, as the content of the timer queue. *)
Definition completionNotice : list (nat * Message) :=
  [(completionDelay, allFoundMessage)].

(** A puzzle whose spangram reads the same in both directions, and one
    whose theme word is the spangram again. *)
Definition noonPath : list Position := [(0, 0); (0, 1); (0, 2); (0, 3)].

Definition noon : Board :=
  mkBoard [ ["N"; "O"; "O"; "N"] ] [] "NOON" "midday"
    (mkPlacementInfo (mkWordPlacement "NOON" noonPath) []).

Definition hiHi : Board :=
  mkBoard [ ["H"; "I"]; ["H"; "I"] ] ["HI"] "HI" "greetings"
    (mkPlacementInfo (mkWordPlacement "HI" hiPath) [mkWordPlacement "HI" okPath]).

(** * Properties *)

(** ** Decimal keys and path strings *)

Module StrFacts.
Import Str.

Lemma occurs_app c a b : occurs c (a +:+ b) = occurs c a || occurs c b.
Proof.
  induction a as [|d a IH]; simpl; [done|].
  by rewrite IH, orb_assoc.
Qed.

Lemma occurs_uint c d :
  occurs c "0123456789" = false -> occurs c (NilEmpty.string_of_uint d) = false.
Proof.
  cbn [occurs]. intros H.
  repeat (apply orb_false_elim in H as [? H]).
  induction d; cbn [NilEmpty.string_of_uint occurs]; rewrite ?IHd; [done|..];
    apply orb_false_intro; done.
Qed.

Lemma occurs_number c n :
  occurs c "-0123456789" = false -> occurs c (numberToString n) = false.
Proof.
  intros H. cbn [occurs] in H. apply orb_false_elim in H as [Hm Hd].
  unfold numberToString.
  destruct (Z.to_int n) as [d|d]; cbn [NilEmpty.string_of_int occurs];
    rewrite ?Hm; by apply occurs_uint.
Qed.

Lemma numberToString_inj n m : numberToString n = numberToString m -> n = m.
Proof.
  unfold numberToString. intros E.
  apply DecimalZ.to_int_inj.
  assert (Some (Z.to_int n) = Some (Z.to_int m)) as [=]; [|done].
  by rewrite <- !NilEmpty.isi, E.
Qed.

Lemma split_not_nil sep s : split sep s <> [].
Proof.
  destruct s as [|c s]; simpl; [done|].
  destruct (Ascii.eqb c sep); [done|]. by destruct (split sep s).
Qed.

(** A piece without separator is cut off at the first separator. *)
Lemma split_piece sep a b :
  occurs sep a = false -> split sep (a +:+ String sep b) = a :: split sep b.
Proof.
  induction a as [|c a IH]; simpl.
  - intros _. by rewrite Ascii.eqb_refl.
  - intros H. apply orb_false_elim in H as [Hc Ha].
    rewrite Hc, (IH Ha). done.
Qed.

Lemma split_single sep a : occurs sep a = false -> split sep a = [a].
Proof.
  induction a as [|c a IH]; simpl; [done|].
  intros H. apply orb_false_elim in H as [Hc Ha].
  by rewrite Hc, (IH Ha).
Qed.

(** [split] undoes [join] on a non-empty array of separator-free pieces. *)
Lemma split_join sep (l : list string) :
  l <> [] -> Forall (fun s => occurs sep s = false) l ->
  split sep (join (String sep "") l) = l.
Proof.
  intros Hne Hall. induction Hall as [|x l Hx Hall IH]; [done|].
  destruct l as [|y l].
  - simpl. by apply split_single.
  - change (join (String sep "") (x :: y :: l))
      with (x +:+ String sep (join (String sep "") (y :: l))).
    rewrite (split_piece _ _ _ Hx). f_equal. by apply IH.
Qed.

Lemma join_cons_nonempty sep x (l : list string) :
  x <> "" -> join sep (x :: l) <> "".
Proof.
  intros Hx. destruct l; simpl; [done|].
  destruct x; [done|]. done.
Qed.

Lemma toLowerCase_equalIgnoringCase s t :
  toLowerCase s = toLowerCase t <-> equalIgnoringCase s t.
Proof.
  revert t. induction s as [|c s IH]; intros [|d t]; simpl;
    [tauto | split; [discriminate | tauto] | split; [discriminate | tauto] |].
  unfold sameLetter. rewrite <- IH. split.
  - by intros [= ? ?].
  - intros [E1 E2]. by rewrite E1, E2.
Qed.

End StrFacts.

Section PathStrings.
Import Str StrFacts.

Lemma cellKey_split p :
  split "," (cellKey p) = [numberToString (fst p); numberToString (snd p)].
Proof.
  unfold cellKey.
  change ("," +:+ numberToString (snd p)) with (String "," (numberToString (snd p))).
  rewrite split_piece by (by apply occurs_number).
  f_equal. apply split_single. by apply occurs_number.
Qed.

Lemma cellKey_inj p q : cellKey p = cellKey q -> p = q.
Proof.
  intros E. apply (f_equal (split ",")) in E.
  rewrite !cellKey_split in E. injection E as E1 E2.
  apply numberToString_inj in E1, E2.
  destruct p, q; simpl in *; congruence.
Qed.

Lemma cellKey_no_bar p : occurs "|" (cellKey p) = false.
Proof.
  unfold cellKey. rewrite !occurs_app, !occurs_number by done. done.
Qed.

Lemma cellKey_nonempty p : cellKey p <> "".
Proof.
  intros E. apply (f_equal (split ",")) in E. by rewrite cellKey_split in E.
Qed.

Lemma cellKeys_no_bar (cells : list Position) :
  Forall (fun s => occurs "|" s = false) (map cellKey cells).
Proof. apply Forall_map, Forall_forall. intros p _. apply cellKey_no_bar. Qed.

Lemma map_cellKey_inj (p q : list Position) :
  map cellKey p = map cellKey q -> p = q.
Proof.
  revert q. induction p as [|x p IH]; intros [|y q]; simpl; try done.
  intros [= E1 E2]. f_equal; [by apply cellKey_inj | by apply IH].
Qed.

(** Two paths have the same string exactly when they are the same
    sequence of positions. *)
Lemma pathToString_inj (p q : list Position) :
  pathToString p = pathToString q -> p = q.
Proof.
  unfold pathToString. intros E.
  destruct p as [|x p], q as [|y q]; [done| | |].
  - symmetry in E. by apply join_cons_nonempty in E; [|apply cellKey_nonempty].
  - by apply join_cons_nonempty in E; [|apply cellKey_nonempty].
  - apply map_cellKey_inj.
    rewrite <- (split_join "|" (map cellKey (x :: p))),
            <- (split_join "|" (map cellKey (y :: q)));
      try apply cellKeys_no_bar; try done.
    by f_equal.
Qed.

(** Reversing the pieces of a path string gives the string of the
    reversed path. *)
Lemma reversedPathString_pathToString (p : list Position) :
  reversedPathString (pathToString p) = pathToString (rev p).
Proof.
  unfold reversedPathString, pathToString.
  destruct p as [|x p]; [done|].
  rewrite split_join; [|done|apply cellKeys_no_bar].
  by rewrite map_rev.
Qed.

Lemma placementMatches_spec selected (cells : list Position) pl :
  placementMatches selected (pathToString cells) pl = true <->
  equalIgnoringCase (word pl) selected
  /\ (cells = path pl \/ cells = rev (path pl)).
Proof.
  unfold placementMatches.
  rewrite andb_true_iff, orb_true_iff, !String.eqb_eq,
    reversedPathString_pathToString, toLowerCase_equalIgnoringCase.
  split; intros [Hw Hp]; (split; [done|]).
  - destruct Hp as [Hp|Hp]; apply pathToString_inj in Hp; auto.
  - destruct Hp as [->| ->]; auto.
Qed.

End PathStrings.

(** ** Adjacency *)

Lemma isAdjacent_spec (p q : Position) :
  isAdjacent p q = true <->
  Z.abs (fst p - fst q) <= 1 /\ Z.abs (snd p - snd q) <= 1 /\ p <> q.
Proof.
  destruct p as [r1 c1], q as [r2 c2]. unfold isAdjacent. simpl.
  rewrite !andb_true_iff, negb_true_iff, andb_false_iff,
    !Z.leb_le, !Z.eqb_neq.
  split.
  - intros [[? ?] Hne]. repeat split; [done..|]. intros [= -> ->]. lia.
  - intros (? & ? & Hne). repeat split; [done..|].
    destruct (decide (r1 = r2)) as [->|]; [|lia].
    right. intros ?. apply Hne. f_equal. lia.
Qed.

Lemma isAdjacent_sym (p q : Position) : isAdjacent p q = isAdjacent q p.
Proof.
  destruct p as [r1 c1], q as [r2 c2]. unfold isAdjacent.
  replace (Z.abs (r2 - r1)) with (Z.abs (r1 - r2)) by lia.
  by replace (Z.abs (c2 - c1)) with (Z.abs (c1 - c2)) by lia.
Qed.

Lemma samePosition_spec (p q : Position) : samePosition p q = true <-> p = q.
Proof.
  destruct p, q. unfold samePosition. simpl.
  rewrite andb_true_iff, !Z.eqb_eq. split; [intros []|intros [=]]; subst; done.
Qed.

Lemma isLocked_spec st p : isLocked st p = true <-> cellKey p ∈ foundPaths st.
Proof. unfold isLocked. by rewrite bool_decide_eq_true. Qed.

(** ** Word validation *)

(** The placements that the [find] predicate of [checkForWord] accepts for
    a clicked path and its candidate string. *)
Lemma findPlacement_Some_iff g candidate (cells : list Position) :
  is_Some (findPlacement g candidate cells) <->
  exists pl, pl ∈ allPlacements g
    /\ Str.equalIgnoringCase (word pl) candidate
    /\ (cells = path pl \/ cells = rev (path pl)).
Proof.
  unfold findPlacement. split.
  - intros [pl Hpl]. apply find_some in Hpl as [Hin Hm].
    exists pl. rewrite list_elem_of_In. by apply placementMatches_spec in Hm.
  - intros (pl & Hin & Hw & Hp).
    destruct (find _ _) eqn:E; [done|].
    apply list_elem_of_In in Hin.
    pose proof (find_none _ _ E pl Hin) as Hn.
    assert (placementMatches candidate (pathToString cells) pl = true) as Ht
      by by apply placementMatches_spec.
    congruence.
Qed.

Lemma findPlacement_Some_matches g candidate (cells : list Position) pl :
  findPlacement g candidate cells = Some pl ->
  pl ∈ allPlacements g
  /\ Str.equalIgnoringCase (word pl) candidate
  /\ (cells = path pl \/ cells = rev (path pl)).
Proof.
  unfold findPlacement. intros Hpl. apply find_some in Hpl as [Hin Hm].
  rewrite list_elem_of_In. by apply placementMatches_spec in Hm.
Qed.

Lemma newFind_Some st found pl :
  newFind st found = Some pl <-> found = Some pl /\ word pl ∉ foundWords st.
Proof.
  unfold newFind. destruct found as [pl'|]; [|naive_solver].
  destruct (decide (word pl' ∈ foundWords st)); naive_solver.
Qed.

Lemma addCells_spec (cells : list Position) (paths : gset string) :
  addCells cells paths = list_to_set (map cellKey cells) ∪ paths.
Proof.
  unfold addCells. revert paths.
  induction cells as [|p cells IH]; intros paths; simpl; [set_solver|].
  rewrite IH. set_solver.
Qed.

(** What [checkForWord] returns, by the branch taken. *)
Lemma checkForWord_found g st cells candidate pl :
  selectedWord (grid g) cells = Some candidate ->
  findPlacement g candidate cells = Some pl ->
  word pl ∉ foundWords st ->
  checkForWord g st cells = Some (setSelectedCells [] (markFound g st cells pl)).
Proof.
  intros Hc Hf Hn. unfold checkForWord. rewrite Hc. simpl. rewrite Hf.
  simpl. by rewrite decide_False.
Qed.

Lemma checkForWord_retry g st cells candidate :
  selectedWord (grid g) cells = Some candidate ->
  newFind st (findPlacement g candidate cells) = None ->
  cells <> [] ->
  checkForWord g st cells
  = Some (setSelectedCells [] (setMessage tryAgainMessage st)).
Proof.
  intros Hc Hf Hn. unfold checkForWord. rewrite Hc. simpl. rewrite Hf.
  by destruct cells.
Qed.

(** C1. Word validation accepts a completed path exactly when some
    placement (spangram or theme word) has a word equal, ignoring case, to
    the candidate string read off the grid along the clicked path, and the
    clicked path is that placement's stored path forwards or exactly
    reversed.  A path that is neither orientation of any stored path is
    rejected whatever its letters; and while no placed word has been found
    yet, acceptance is visible as a change of [foundWords]. *)
Theorem validation_accepts_iff_placement_matches
    g (cells : list Position) candidate :
  selectedWord (grid g) cells = Some candidate ->
  (is_Some (findPlacement g candidate cells) <->
     exists pl, pl ∈ allPlacements g
       /\ Str.equalIgnoringCase (word pl) candidate
       /\ (cells = path pl \/ cells = rev (path pl)))
  /\ ((forall pl, pl ∈ allPlacements g ->
         cells <> path pl /\ cells <> rev (path pl)) ->
      findPlacement g candidate cells = None)
  /\ (forall st st',
        (forall pl, pl ∈ allPlacements g -> word pl ∉ foundWords st) ->
        checkForWord g st cells = Some st' ->
        (foundWords st' <> foundWords st <->
           exists pl, pl ∈ allPlacements g
             /\ Str.equalIgnoringCase (word pl) candidate
             /\ (cells = path pl \/ cells = rev (path pl)))).
Proof.
  intros Hc. split; [apply findPlacement_Some_iff|]. split.
  - intros Hno. destruct (findPlacement g candidate cells) as [pl|] eqn:E; [|done].
    apply findPlacement_Some_matches in E as (Hin & _ & Hp).
    destruct (Hno pl Hin) as [H1 H2]. by destruct Hp.
  - intros st st' Hfresh Hck.
    rewrite <- findPlacement_Some_iff.
    destruct (findPlacement g candidate cells) as [pl|] eqn:E.
    + pose proof (findPlacement_Some_matches _ _ _ _ E) as (Hin & _).
      rewrite (checkForWord_found _ _ _ _ _ Hc E (Hfresh pl Hin)) in Hck.
      injection Hck as <-. simpl. split; [by eauto|intros _].
      specialize (Hfresh pl Hin). set_solver.
    + unfold checkForWord in Hck. rewrite Hc in Hck. simpl in Hck.
      rewrite E in Hck. simpl in Hck. injection Hck as <-.
      split; [|by intros [? [=]]].
      intros Hne. exfalso. apply Hne. by destruct (0 <? length cells)%nat.
Qed.

Lemma validation_accepts_iff_placement_matches_witness :
  selectedWord (grid cats) catPath = Some "CAT"
  /\ is_Some (findPlacement cats "CAT" catPath).
Proof.
  split; [reflexivity|].
  apply (validation_accepts_iff_placement_matches cats catPath "CAT");
    [reflexivity|].
  exists (mkWordPlacement "CAT" catPath).
  split; [|split; [by vm_compute | by left]].
  apply list_elem_of_In. right. left. reflexivity.
Defined.

(** ** Cell clicks *)

Lemma samePosition_false (p q : Position) : p <> q -> samePosition p q = false.
Proof.
  intros Hne. destruct (samePosition p q) eqn:E; [|done].
  by apply samePosition_spec in E.
Qed.

Lemma selectCell_locked g st p : isLocked st p = true -> selectCell g st p = st.
Proof. intros H. unfold selectCell, onClick. by rewrite H. Qed.

Lemma selectCell_unlocked g st p :
  isLocked st p = false ->
  selectCell g st p = default st (handleCellClick g st (fst p) (snd p)).
Proof. intros H. unfold selectCell, onClick. by rewrite H. Qed.

Lemma handleCellClick_empty g st row col :
  selectedCells st = [] ->
  handleCellClick g st row col = Some (setSelectedCells [(row, col)] st).
Proof. intros E. unfold handleCellClick. by rewrite E. Qed.

Lemma handleCellClick_complete g st (p : Position) :
  last (selectedCells st) = Some p ->
  handleCellClick g st (fst p) (snd p) = checkForWord g st (selectedCells st).
Proof.
  intros E. unfold handleCellClick. rewrite E.
  replace (samePosition p (fst p, snd p)) with true; [done|].
  symmetry. apply samePosition_spec. by destruct p.
Qed.

Lemma handleCellClick_abort g st (p lastCell : Position) :
  last (selectedCells st) = Some lastCell ->
  p <> lastCell ->
  isAdjacent lastCell p = false \/ isLocked st p = true ->
  handleCellClick g st (fst p) (snd p) = Some (setSelectedCells [] st).
Proof.
  intros E Hne Hab. unfold handleCellClick. rewrite E.
  replace (fst p, snd p) with p by by destruct p.
  rewrite samePosition_false by done.
  by destruct Hab as [-> | ->]; rewrite ?orb_true_r.
Qed.

Lemma handleCellClick_append g st (p lastCell : Position) :
  last (selectedCells st) = Some lastCell ->
  isAdjacent lastCell p = true ->
  isLocked st p = false ->
  handleCellClick g st (fst p) (snd p)
  = Some (setSelectedCells (selectedCells st ++ [p]) st).
Proof.
  intros E Hadj Hl. unfold handleCellClick. rewrite E.
  replace (fst p, snd p) with p by by destruct p.
  rewrite samePosition_false, Hadj, Hl; [done|].
  intros ->. apply isAdjacent_spec in Hadj. naive_solver.
Qed.

(** C2. A click on a locked cell changes nothing: the selection, the found
    words, the locked cells and the message are as before, with an empty
    as with a non-empty selection. *)
Theorem locked_click_is_noop g st (p : Position) :
  cellKey p ∈ foundPaths st ->
  selectCell g st p = st
  /\ selectedCells (selectCell g st p) = selectedCells st
  /\ foundWords (selectCell g st p) = foundWords st
  /\ foundPaths (selectCell g st p) = foundPaths st
  /\ message (selectCell g st p) = message st.
Proof.
  intros Hin. apply isLocked_spec in Hin.
  by rewrite (selectCell_locked _ _ _ Hin).
Qed.

Lemma locked_click_is_noop_witness :
  cellKey (0, 1) ∈ foundPaths (selectCell cats catFound (0, 3))
  /\ selectedCells (selectCell cats catFound (0, 3)) = [(0, 3)]
  /\ selectCell cats (selectCell cats catFound (0, 3)) (0, 1)
     = selectCell cats catFound (0, 3).
Proof.
  assert (cellKey (0, 1) ∈ foundPaths (selectCell cats catFound (0, 3))) as Hin
    by (apply isLocked_spec; vm_compute; reflexivity).
  split; [exact Hin|]. split; [reflexivity|].
  exact (proj1 (locked_click_is_noop cats _ (0, 1) Hin)).
Defined.

(** C3, as the code has it. With a non-empty selection, a click on an
    unlocked cell that is neither the last selected cell nor adjacent to it
    empties the selection and touches nothing else; no validation runs.  A
    click on a locked cell leaves the selection as it is, since the cell's
    click guard returns first; [handleCellClick] on its own empties the
    selection for a locked cell too. *)
Theorem nonadjacent_click_clears_selection g st (p lastCell : Position) :
  last (selectedCells st) = Some lastCell ->
  p <> lastCell ->
  (isLocked st p = false -> isAdjacent lastCell p = false ->
     selectedCells (selectCell g st p) = []
     /\ foundWords (selectCell g st p) = foundWords st
     /\ foundPaths (selectCell g st p) = foundPaths st
     /\ message (selectCell g st p) = message st
     /\ timers (selectCell g st p) = timers st)
  /\ (isLocked st p = true -> selectCell g st p = st)
  /\ (isAdjacent lastCell p = false \/ isLocked st p = true ->
      handleCellClick g st (fst p) (snd p) = Some (setSelectedCells [] st)).
Proof.
  intros E Hne. split; [|split].
  - intros Hl Hadj. rewrite selectCell_unlocked by done.
    by rewrite (handleCellClick_abort _ _ _ _ E Hne (or_introl Hadj)).
  - apply selectCell_locked.
  - by apply handleCellClick_abort.
Qed.

Lemma nonadjacent_click_clears_selection_witness :
  selectedCells (selectCell cats (selectCell cats initialState (0, 0)) (2, 2)) = [].
Proof.
  refine (proj1 (proj1 (nonadjacent_click_clears_selection cats
            (selectCell cats initialState (0, 0)) (2, 2) (0, 0) _ _) _ _));
    [reflexivity | discriminate | reflexivity | reflexivity].
Defined.

(** C3 as stated fails: with CAT found and (0,3) selected, the locked cell
    (0,2) differs from the last selected cell, yet the click keeps the
    selection. *)
Lemma locked_click_keeps_selection :
  ~ (forall g st (p lastCell : Position),
       last (selectedCells st) = Some lastCell ->
       p <> lastCell ->
       isAdjacent lastCell p = false \/ isLocked st p = true ->
       selectedCells (selectCell g st p) = []).
Proof.
  intros H.
  specialize (H cats (selectCell cats catFound (0, 3)) (0, 2) (0, 3)).
  discriminate H; [reflexivity | discriminate | right; reflexivity].
Qed.

(** C8, as the code has it. With an empty selection, a click on an
    unlocked cell selects exactly that cell and changes nothing else;
    [handleCellClick] on its own does so for every cell. *)
Theorem first_click_selects_cell g st (p : Position) :
  selectedCells st = [] ->
  (isLocked st p = false ->
     selectedCells (selectCell g st p) = [p]
     /\ foundWords (selectCell g st p) = foundWords st
     /\ foundPaths (selectCell g st p) = foundPaths st
     /\ message (selectCell g st p) = message st)
  /\ handleCellClick g st (fst p) (snd p) = Some (setSelectedCells [p] st).
Proof.
  intros E.
  assert (handleCellClick g st (fst p) (snd p) = Some (setSelectedCells [p] st))
    as Hh by (rewrite handleCellClick_empty by done; by destruct p).
  split; [|done].
  intros Hl. rewrite selectCell_unlocked by done. by rewrite Hh.
Qed.

Lemma first_click_selects_cell_witness :
  selectedCells (selectCell cats initialState (1, 2)) = [(1, 2)].
Proof.
  refine (proj1 (proj1 (first_click_selects_cell cats initialState (1, 2) _) _));
    reflexivity.
Defined.

(** C8 as stated fails: with CAT found and nothing selected, a click on
    the locked cell (0,0) leaves the selection empty. *)
Lemma first_click_on_locked_cell :
  ~ (forall g st (p : Position),
       selectedCells st = [] -> selectedCells (selectCell g st p) = [p]).
Proof.
  intros H. specialize (H cats catFound (0, 0)).
  discriminate H. reflexivity.
Qed.

(** C10. A click on an unlocked cell adjacent to the last selected cell
    is appended without looking at the earlier cells of the selection, so
    a cell already selected appears twice; clicking (0,0), (0,1), (0,0) on
    a fresh board is such a sequence. *)
Theorem selection_may_repeat_a_cell :
  (forall g st (p lastCell : Position),
     last (selectedCells st) = Some lastCell ->
     isAdjacent lastCell p = true ->
     isLocked st p = false ->
     p ∈ selectedCells st ->
     selectedCells (selectCell g st p) = selectedCells st ++ [p]
     /\ ~ NoDup (selectedCells (selectCell g st p)))
  /\ (exists clicks (p : Position) (i j : nat),
        i <> j
        /\ selectedCells (selectCells cats initialState clicks) !! i = Some p
        /\ selectedCells (selectCells cats initialState clicks) !! j = Some p).
Proof.
  split.
  - intros g st p lastCell E Hadj Hl Hin.
    rewrite selectCell_unlocked by done.
    rewrite (handleCellClick_append _ _ _ _ E Hadj Hl). simpl.
    split; [done|]. rewrite NoDup_app. intros (_ & Hd & _).
    apply (Hd p Hin). by left.
  - exists [(0, 0); (0, 1); (0, 0)], (0, 0), 0%nat, 2%nat. by vm_compute.
Qed.

Lemma selection_may_repeat_a_cell_witness :
  ~ NoDup (selectedCells (selectCells cats initialState [(0, 0); (0, 1); (0, 0)])).
Proof.
  refine (proj2 (proj1 selection_may_repeat_a_cell cats
            (selectCells cats initialState [(0, 0); (0, 1)]) (0, 0) (0, 1) _ _ _ _));
    [reflexivity | reflexivity | reflexivity | by left].
Defined.

(** The scenario of the specification: selecting C, A, T and clicking T
    again finds CAT and locks its three cells; a further lone S is not a
    word. *)
Example cat_is_found :
  foundWords catFound = {["CAT"]}
  /\ foundPaths catFound = list_to_set (map cellKey catPath)
  /\ selectedCells catFound = []
  /\ message (selectCells cats catFound [(0, 3); (0, 3)]) = tryAgainMessage.
Proof. by vm_compute. Qed.

(** The candidate string is read in click order, so CAT traced backwards
    spells TAC and is not matched. *)
Example cat_backwards_is_not_matched :
  selectedWord (grid cats) (rev catPath) = Some "TAC"
  /\ findPlacement cats "TAC" (rev catPath) = None.
Proof. by vm_compute. Qed.

(** ** Progress *)

Lemma checkForWord_cases g st cells st' :
  checkForWord g st cells = Some st' ->
  (exists pl, (word pl ∉ foundWords st) /\ pl ∈ allPlacements g
     /\ st' = setSelectedCells [] (markFound g st cells pl))
  \/ (st' = setSelectedCells [] (setMessage tryAgainMessage st)
      \/ st' = setSelectedCells [] st).
Proof.
  unfold checkForWord.
  destruct (selectedWord (grid g) cells) as [candidate|]; [|done].
  simpl. intros [= <-].
  destruct (newFind st _) as [pl|] eqn:E.
  - left. exists pl. apply newFind_Some in E as [Hf Hn].
    by apply findPlacement_Some_matches in Hf as [Hin _].
  - right. destruct (0 <? length cells)%nat; auto.
Qed.

Lemma handleCellClick_cases g st row col st' :
  handleCellClick g st row col = Some st' ->
  checkForWord g st (selectedCells st) = Some st'
  \/ exists cells, st' = setSelectedCells cells st.
Proof.
  unfold handleCellClick. destruct (last (selectedCells st)) as [lastCell|].
  - destruct (samePosition _ _); [by left|].
    destruct (_ || _); intros [= <-]; right; eauto.
  - intros [= <-]. right; eauto.
Qed.

(** The possible outcomes of one click. *)
Lemma selectCell_cases g st p :
  (exists pl, (word pl ∉ foundWords st) /\ pl ∈ allPlacements g
     /\ selectCell g st p
        = setSelectedCells [] (markFound g st (selectedCells st) pl))
  \/ (exists cells m, selectCell g st p = setSelectedCells cells (setMessage m st)).
Proof.
  assert (exists cells m, st = setSelectedCells cells (setMessage m st)) as Hid
    by (exists (selectedCells st), (message st); by destruct st).
  unfold selectCell, onClick. destruct (isLocked st p); [by right|].
  destruct (handleCellClick g st (fst p) (snd p)) as [st'|] eqn:E; [|by right].
  simpl. apply handleCellClick_cases in E as [E|[cells ->]].
  - apply checkForWord_cases in E as [(pl & ? & ? & ->)|[-> | ->]].
    + left. eauto.
    + right. eauto.
    + right. exists [], (message st). by destruct st.
  - right. exists cells, (message st). by destruct st.
Qed.

Lemma selectCell_grows g st p :
  foundWords st ⊆ foundWords (selectCell g st p)
  /\ foundPaths st ⊆ foundPaths (selectCell g st p).
Proof.
  destruct (selectCell_cases g st p) as [(pl & _ & _ & ->)|(cells & m & ->)]; simpl.
  - rewrite addCells_spec. set_solver.
  - done.
Qed.

Lemma selectCell_placedWords g st p :
  foundWords st ⊆ placedWords g -> foundWords (selectCell g st p) ⊆ placedWords g.
Proof.
  intros Hinv.
  destruct (selectCell_cases g st p) as [(pl & _ & Hin & ->)|(cells & m & ->)];
    cbn [foundWords setSelectedCells setMessage markFound]; [|done].
  apply union_subseteq. split; [|done].
  apply singleton_subseteq_l.
  unfold placedWords. apply elem_of_list_to_set, list_elem_of_fmap. eauto.
Qed.

Lemma selectCells_grows g st clicks :
  foundWords st ⊆ foundWords (selectCells g st clicks)
  /\ foundPaths st ⊆ foundPaths (selectCells g st clicks).
Proof.
  revert st. induction clicks as [|p clicks IH]; intros st; simpl; [done|].
  destruct (selectCell_grows g st p), (IH (selectCell g st p)).
  split; by etrans.
Qed.

Lemma selectCells_placedWords g st clicks :
  foundWords st ⊆ placedWords g ->
  foundWords (selectCells g st clicks) ⊆ placedWords g.
Proof.
  revert st. induction clicks as [|p clicks IH]; intros st Hinv; simpl; [done|].
  by apply IH, selectCell_placedWords.
Qed.

Lemma size_list_to_set_le (l : list string) :
  (size (list_to_set l : gset string) <= length l)%nat.
Proof.
  induction l as [|x l IH].
  - rewrite list_to_set_nil, size_empty. done.
  - rewrite list_to_set_cons, size_union_alt, size_singleton.
    assert (list_to_set l ∖ {[x]} ⊆ (list_to_set l : gset string)) as Hs
      by set_solver.
    apply subseteq_size in Hs. simpl. lia.
Qed.

Lemma length_allPlacements g :
  length (allPlacements g) = S (length (pi_words (placementInfo g))).
Proof. unfold allPlacements. simpl. by rewrite length_map. Qed.

Lemma size_placedWords g : (size (placedWords g) <= length (allPlacements g))%nat.
Proof.
  unfold placedWords. etrans; [apply size_list_to_set_le|]. by rewrite length_map.
Qed.

(** C4. A completion attempt whose path is matched by a placement whose
    word is already in [foundWords] finds nothing: the found words (and
    their number) and the locked cells stay as they are, the message
    becomes the retry notice and not a success message, no completion
    notice is scheduled, and the selection is emptied. *)
Theorem refinding_a_word_gives_retry g st (p : Position) candidate pl :
  last (selectedCells st) = Some p ->
  selectedWord (grid g) (selectedCells st) = Some candidate ->
  findPlacement g candidate (selectedCells st) = Some pl ->
  word pl ∈ foundWords st ->
  exists st',
    handleCellClick g st (fst p) (snd p) = Some st'
    /\ checkForWord g st (selectedCells st) = Some st'
    /\ foundWords st' = foundWords st
    /\ size (foundWords st') = size (foundWords st)
    /\ foundPaths st' = foundPaths st
    /\ message st' = tryAgainMessage
    /\ type (message st') <> Some success
    /\ timers st' = timers st
    /\ selectedCells st' = [].
Proof.
  intros Hlast Hc Hf Hin.
  exists (setSelectedCells [] (setMessage tryAgainMessage st)).
  assert (checkForWord g st (selectedCells st)
          = Some (setSelectedCells [] (setMessage tryAgainMessage st))) as Hck.
  { apply (checkForWord_retry _ _ _ candidate); [done| |].
    - rewrite Hf. simpl. by rewrite decide_True.
    - intros E. by rewrite E in Hlast. }
  rewrite handleCellClick_complete by done.
  repeat split; done.
Qed.

Lemma refinding_a_word_gives_retry_witness :
  exists st',
    handleCellClick cats (setSelectedCells catPath catFound) 0 2 = Some st'
    /\ foundWords st' = foundWords catFound
    /\ message st' = tryAgainMessage.
Proof.
  destruct (refinding_a_word_gives_retry cats (setSelectedCells catPath catFound)
              (0, 2) "CAT" (mkWordPlacement "CAT" catPath))
    as (st' & H1 & _ & H2 & _ & _ & H3 & _);
    [reflexivity | reflexivity | reflexivity
    | vm_compute; reflexivity |].
  exists st'. split; [exact H1|]. split; [exact H2 | exact H3].
Defined.

(** C5. Over any sequence of clicks on one puzzle the found words and the
    locked cells only grow, so the number of found words never decreases;
    and when the placement table has one entry per theme word, that number
    stays at most [words.length + 1] from any state whose found words are
    placed words, the initial state among them. *)
Theorem found_sets_only_grow g st (clicks : list Position) :
  foundWords st ⊆ foundWords (selectCells g st clicks)
  /\ foundPaths st ⊆ foundPaths (selectCells g st clicks)
  /\ (size (foundWords st) <= size (foundWords (selectCells g st clicks)))%nat
  /\ (size (foundPaths st) <= size (foundPaths (selectCells g st clicks)))%nat
  /\ (length (pi_words (placementInfo g)) = length (words g) ->
      foundWords st ⊆ placedWords g ->
      (size (foundWords (selectCells g st clicks)) <= length (words g) + 1)%nat)
  /\ (length (pi_words (placementInfo g)) = length (words g) ->
      (size (foundWords (selectCells g initialState clicks))
       <= length (words g) + 1)%nat).
Proof.
  destruct (selectCells_grows g st clicks) as [Hw Hp].
  assert (forall s, length (pi_words (placementInfo g)) = length (words g) ->
            foundWords s ⊆ placedWords g ->
            (size (foundWords (selectCells g s clicks)) <= length (words g) + 1)%nat)
    as Hbound.
  { intros s Hlen Hinv.
    apply (selectCells_placedWords g s clicks), subseteq_size in Hinv.
    pose proof (size_placedWords g) as Hs.
    rewrite length_allPlacements, Hlen in Hs. lia. }
  repeat split; [done | done | by apply subseteq_size | by apply subseteq_size
                | apply Hbound | intros Hlen; apply Hbound; [done|set_solver]].
Qed.

Lemma found_sets_only_grow_witness :
  length (pi_words (placementInfo cats)) = length (words cats)
  /\ (size (foundWords (selectCells cats initialState
                          [(0, 0); (0, 1); (0, 2); (0, 2); (0, 3); (0, 3)]%Z))
      <= length (words cats) + 1)%nat.
Proof.
  split; [reflexivity|].
  apply (found_sets_only_grow cats initialState
           [(0, 0); (0, 1); (0, 2); (0, 2); (0, 3); (0, 3)]).
  reflexivity.
Defined.

(** ** Completion notice *)

Lemma app_singleton_ne {A} (l : list A) x : l ++ [x] <> l.
Proof.
  intros E. apply (f_equal length) in E. rewrite length_app in E. simpl in E. lia.
Qed.

Lemma fireTimer_frame m st :
  selectedCells (fireTimer m st) = selectedCells st
  /\ foundWords (fireTimer m st) = foundWords st
  /\ foundPaths (fireTimer m st) = foundPaths st
  /\ timers (fireTimer m st) = timers st
  /\ message (fireTimer m st) = m.
Proof. done. Qed.

(** C7. A validation schedules the completion notice, with the fixed delay
    and the fixed text, exactly when it is a successful find after which
    the number of found words equals the number of placements; with one
    placement per theme word that is the [isComplete] condition
    [foundWords.size = words.length + 1].  Nothing else is scheduled, and
    the notice, when it fires, replaces the message and nothing else. *)
Theorem completion_notice_scheduled_iff_complete g st cells st' :
  checkForWord g st cells = Some st' ->
  (timers st' = timers st
   \/ timers st' = timers st ++ [(completionDelay, allFoundMessage)])
  /\ (timers st' = timers st ++ [(completionDelay, allFoundMessage)] <->
      foundWords st' <> foundWords st
      /\ size (foundWords st') = length (allPlacements g))
  /\ (length (pi_words (placementInfo g)) = length (words g) ->
      (timers st' = timers st ++ [(completionDelay, allFoundMessage)] <->
       foundWords st' <> foundWords st /\ isComplete g st' = true))
  /\ (forall s,
        selectedCells (fireTimer allFoundMessage s) = selectedCells s
        /\ foundWords (fireTimer allFoundMessage s) = foundWords s
        /\ foundPaths (fireTimer allFoundMessage s) = foundPaths s
        /\ timers (fireTimer allFoundMessage s) = timers s
        /\ message (fireTimer allFoundMessage s) = allFoundMessage).
Proof.
  intros Hck.
  assert (timers st' = timers st ++ [(completionDelay, allFoundMessage)] <->
          foundWords st' <> foundWords st
          /\ size (foundWords st') = length (allPlacements g)) as Hiff.
  { apply checkForWord_cases in Hck as [(pl & Hn & _ & ->)|[-> | ->]];
      cbn [timers foundWords setSelectedCells setMessage markFound].
    - destruct (Nat.eqb_spec (size ({[word pl]} ∪ foundWords st))
                  (length (allPlacements g))) as [E|E].
      + split; [intros _|done]. split; [set_solver|done].
      + split; [intros H; by apply symmetry, app_singleton_ne in H|].
        by intros [_ ?].
    - split; [intros H; by apply symmetry, app_singleton_ne in H|by intros [? _]].
    - split; [intros H; by apply symmetry, app_singleton_ne in H|by intros [? _]]. }
  split; [|split; [done|split; [|done]]].
  - apply checkForWord_cases in Hck as [(pl & Hn & _ & ->)|[-> | ->]];
      cbn [timers setSelectedCells setMessage markFound]; auto.
    destruct (Nat.eqb _ _); auto.
  - intros Hlen. rewrite Hiff. unfold isComplete.
    rewrite length_allPlacements, Hlen, Nat.eqb_eq. split; intros [? ?]; split; (done || lia).
Qed.

Lemma completion_notice_scheduled_iff_complete_witness :
  exists st',
    checkForWord hiOk okSelected okPath = Some st'
    /\ timers st' = [(completionDelay, allFoundMessage)].
Proof.
  exists (setSelectedCells []
            (markFound hiOk okSelected okPath (mkWordPlacement "OK" okPath))).
  assert (checkForWord hiOk okSelected okPath
          = Some (setSelectedCells []
                    (markFound hiOk okSelected okPath (mkWordPlacement "OK" okPath))))
    as Hck by (vm_compute; reflexivity).
  split; [exact Hck|].
  apply (proj1 (proj2 (completion_notice_scheduled_iff_complete
                         hiOk okSelected okPath _ Hck))).
  split; vm_compute; [discriminate | reflexivity].
Defined.

(** ** New game and failed puzzle requests *)

(** C6. When a new board is mounted the reset effect empties the
    selection, the found words and the locked cells, but it leaves the
    message (and the pending notices) of the previous game in place: after
    a failed attempt on the old board the new board still shows the retry
    notice. *)
Theorem new_board_keeps_old_message (a : App) (newBoard : Board) st :
  game a = Some st ->
  board (container (finishGenerate a (inr newBoard))) = Some newBoard
  /\ game (finishGenerate a (inr newBoard)) = Some (resetEffect st)
  /\ selectedCells (resetEffect st) = []
  /\ foundWords (resetEffect st) = ∅
  /\ foundPaths (resetEffect st) = ∅
  /\ message (resetEffect st) = message st
  /\ timers (resetEffect st) = timers st
  /\ message (resetEffect (selectCells cats initialState [(0, 0); (0, 0)]))
     = tryAgainMessage
  /\ tryAgainMessage <> noMessage.
Proof.
  intros Hg. unfold finishGenerate. rewrite Hg. simpl. repeat split; done.
Qed.

Lemma new_board_keeps_old_message_witness :
  message (resetEffect (selectCells cats initialState [(0, 0); (0, 0)]))
  = message (selectCells cats initialState [(0, 0); (0, 0)]).
Proof.
  refine (proj1 (proj2 (proj2 (proj2 (proj2 (proj2
    (new_board_keeps_old_message
       (mkApp (mkContainer "key" (Some cats) None false)
          (Some (selectCells cats initialState [(0, 0); (0, 0)])))
       hiOk _ eq_refl))))))).
Defined.

Lemma orElse_nonempty detail fallback :
  fallback <> "" -> orElse detail fallback <> "".
Proof.
  intros Hf. unfold orElse. destruct detail as [d|]; [|done].
  destruct (String.eqb_spec d ""); done.
Qed.

(** A rejected promise leaves the board and the mounted game alone. *)
Lemma finishGenerate_rejected a err :
  board (container (finishGenerate a (inl err))) = board (container a)
  /\ game (finishGenerate a (inl err)) = game a
  /\ error (container (finishGenerate a (inl err))) = Some (errorText err)
  /\ isLoading (container (finishGenerate a (inl err))) = false.
Proof. done. Qed.

Lemma beginGenerate_frame a :
  board (container (fst (beginGenerate a))) = board (container a)
  /\ game (fst (beginGenerate a)) = game a.
Proof. unfold beginGenerate. by destruct (String.eqb _ _). Qed.

Lemma handleGenerateGame_rejected gen a x err :
  gen x = inl err ->
  board (container (handleGenerateGame gen a x)) = board (container a)
  /\ game (handleGenerateGame gen a x) = game a
  /\ apiKey (container (handleGenerateGame gen a x)) = apiKey (container a)
  /\ error (container (handleGenerateGame gen a x))
     = Some (if String.eqb (apiKey (container a)) ""
             then "Please enter your API key" else errorText err).
Proof.
  intros E. unfold handleGenerateGame, beginGenerate.
  destruct (String.eqb (apiKey (container a)) ""); [done|]. by rewrite E.
Qed.

(** Both service modules reject the promise on every failed exchange. *)
Lemma generateGame_rejects x :
  (forall b, x <> Ok b) ->
  exists err err',
    generateGame x = inl err /\ generateGameLocal x = inl err'
    /\ (forall statusText detail, x = NotOk statusText detail ->
          err = ErrorObject (orElse detail (failedPrefix +:+ statusText))
          /\ err' = ErrorObject (failedPrefix +:+ statusText)).
Proof.
  intros Hfail. destruct x as [e|statusText detail|e|b]; simpl.
  - exists e, e. by repeat split.
  - do 2 eexists. split; [done|]. split; [done|]. by intros ? ? [= <- <-].
  - exists e, e. by repeat split.
  - by destruct (Hfail b).
Qed.

(** C9. When the puzzle request fails (the fetch is rejected, the response
    is not ok, or its body cannot be read), with either service module, the
    board and the state of the mounted game are exactly as before and an
    error message is set; for a response that is not ok the message is not
    empty. *)
Theorem failed_request_preserves_game (a : App) (x : Exchange) a' :
  (forall b, x <> Ok b) ->
  a' = handleGenerateGame generateGame a x
  \/ a' = handleGenerateGame generateGameLocal a x ->
  board (container a') = board (container a)
  /\ game a' = game a
  /\ exists m, error (container a') = Some m
       /\ ((exists statusText detail, x = NotOk statusText detail) -> m <> "").
Proof.
  intros Hfail Ha'.
  destruct (generateGame_rejects x Hfail) as (err & err' & E & E' & Hnot).
  assert (exists e, (board (container a') = board (container a)
            /\ game a' = game a
            /\ apiKey (container a') = apiKey (container a)
            /\ error (container a')
               = Some (if String.eqb (apiKey (container a)) ""
                       then "Please enter your API key" else errorText e))
            /\ forall statusText detail, x = NotOk statusText detail ->
                 errorText e <> "") as (e & (Hb & Hg & _ & He) & Hne).
  { destruct Ha' as [-> | ->]; [exists err | exists err'];
      (split; [by eapply handleGenerateGame_rejected|]);
      intros statusText detail Hx; destruct (Hnot _ _ Hx) as [-> ->]; simpl.
    - by apply orElse_nonempty.
    - done. }
  split; [done|]. split; [done|].
  eexists. split; [exact He|].
  intros (statusText & detail & Hx).
  destruct (String.eqb _ _); [done|]. by eapply Hne.
Qed.

Lemma failed_request_preserves_game_witness :
  game (handleGenerateGame generateGame
          (mkApp (mkContainer "key" (Some cats) None false) (Some catFound))
          (NotOk "Unauthorized" None))
  = Some catFound.
Proof.
  refine (proj1 (proj2 (failed_request_preserves_game
            (mkApp (mkContainer "key" (Some cats) None false) (Some catFound))
            (NotOk "Unauthorized" None) _ _ (or_introl eq_refl)))).
  intros b. discriminate.
Defined.

(** * Further properties of the component *)

(** ** Adjacency and path strings *)

(** X1. Adjacency is symmetric, no cell is adjacent to itself, and the
    cells adjacent to a cell are exactly its eight neighbours. *)
Theorem isAdjacent_eight_neighbours (p q : Position) :
  isAdjacent p q = isAdjacent q p
  /\ isAdjacent p p = false
  /\ (isAdjacent p q = true <-> q ∈ neighbours p).
Proof.
  split; [apply isAdjacent_sym|]. split.
  - destruct (isAdjacent p p) eqn:E; [|done].
    apply isAdjacent_spec in E. naive_solver.
  - rewrite isAdjacent_spec. destruct p as [r c], q as [r' c'].
    unfold neighbours. rewrite !elem_of_cons, elem_of_nil. simpl. split.
    + intros (Hr & Hc & Hne).
      assert (r' = r - 1 \/ r' = r \/ r' = r + 1) as Hr' by lia.
      assert (c' = c - 1 \/ c' = c \/ c' = c + 1) as Hc' by lia.
      destruct Hr' as [-> | [-> | ->]], Hc' as [-> | [-> | ->]];
        try (contradict Hne; reflexivity); tauto.
    + intros H.
      repeat (destruct H as [H|H];
              [injection H as -> ->; repeat split; try lia;
               intros E; inversion E; lia|]).
      done.
Qed.

(** X2. Two click paths have the same path string only if they are the
    same sequence of cells, and two cells have the same key only if they
    are the same cell. *)
Theorem pathToString_injective (cells cells' : list Position) (p q : Position) :
  (pathToString cells = pathToString cells' <-> cells = cells')
  /\ (cellKey p = cellKey q <-> p = q).
Proof.
  split; (split; [|by intros ->]).
  - apply pathToString_inj.
  - apply cellKey_inj.
Qed.

(** X3. Splitting a path string at the bars, reversing the pieces and
    joining them again gives the path string of the reversed path; doing
    it twice gives the path string back. *)
Theorem reversedPathString_is_reversed_path (cells : list Position) :
  reversedPathString (pathToString cells) = pathToString (rev cells)
  /\ reversedPathString (reversedPathString (pathToString cells))
     = pathToString cells.
Proof.
  split; [apply reversedPathString_pathToString|].
  by rewrite !reversedPathString_pathToString, rev_involutive.
Qed.

(** ** The rendered grid *)

Lemma elem_of_concat_imap {A B} (f : nat -> A -> list B) (l : list A) (b : B) :
  b ∈ concat (imap f l) <-> exists i x, l !! i = Some x /\ b ∈ f i x.
Proof.
  rewrite list_elem_of_In, in_concat. split.
  - intros (bs & Hbs & Hb). apply list_elem_of_In, elem_of_lookup_imap in Hbs.
    destruct Hbs as (i & x & -> & Hx). exists i, x. by rewrite list_elem_of_In.
  - intros (i & x & Hx & Hb). exists (f i x).
    rewrite <- !list_elem_of_In. split; [|done].
    by apply elem_of_lookup_imap_2.
Qed.

Lemma NoDup_imap_index {A B} (f : nat -> A -> B) (l : list A) :
  (forall i j x y, f i x = f j y -> i = j) -> NoDup (imap f l).
Proof.
  intros Hinj. apply NoDup_alt. intros i j b Hi Hj.
  apply list_lookup_imap_Some in Hi as (x & _ & ->).
  apply list_lookup_imap_Some in Hj as (y & _ & E).
  by apply Hinj in E.
Qed.

Lemma NoDup_concat_imap {A B} (f : nat -> A -> list B) (l : list A) :
  (forall i x, NoDup (f i x)) ->
  (forall i j x y b, b ∈ f i x -> b ∈ f j y -> i = j) ->
  NoDup (concat (imap f l)).
Proof.
  revert f. induction l as [|x l IH]; intros f Hrow Hdisj; simpl; [constructor|].
  apply NoDup_app. split; [apply Hrow|]. split.
  - intros b Hb Hin. apply elem_of_concat_imap in Hin as (i & y & _ & Hy).
    simpl in Hy. by specialize (Hdisj _ _ _ _ _ Hb Hy).
  - apply IH; [intros; apply Hrow|].
    intros i j y z b Hy Hz. simpl in *.
    specialize (Hdisj _ _ _ _ _ Hy Hz). lia.
Qed.

Lemma index_Some {A} (l : list A) (i : Z) x :
  index l i = Some x <-> exists n : nat, i = Z.of_nat n /\ l !! n = Some x.
Proof.
  unfold index. destruct (Z.ltb_spec i 0) as [Hneg|Hpos].
  - split; [done|]. intros (n & -> & _). lia.
  - split.
    + intros H. exists (Z.to_nat i). split; [lia|done].
    + intros (n & -> & H). by rewrite Nat2Z.id.
Qed.

Lemma elem_of_renderedPositions board (p : Position) :
  p ∈ renderedPositions board <-> inGrid board p.
Proof.
  unfold renderedPositions, inGrid, cellAt. rewrite elem_of_concat_imap. split.
  - intros (i & row & Hrow & Hp).
    apply elem_of_lookup_imap in Hp as (j & letter & -> & Hj).
    exists letter. simpl.
    replace (index board (Z.of_nat i)) with (Some row)
      by (symmetry; apply index_Some; eauto).
    f_equal. apply index_Some. eauto.
  - intros (letter & H).
    destruct (index board (fst p)) as [row|] eqn:Erow; [|done].
    injection H as Hcol.
    apply index_Some in Erow as (i & Hi & Erow).
    apply index_Some in Hcol as (j & Hj & Hcol).
    exists i, row. split; [done|].
    apply elem_of_lookup_imap. exists j, letter.
    split; [|done]. destruct p; simpl in *; congruence.
Qed.

Lemma NoDup_renderedPositions board : NoDup (renderedPositions board).
Proof.
  unfold renderedPositions. apply NoDup_concat_imap.
  - intros i row. apply NoDup_imap_index. intros j j' _ _ [= E]. lia.
  - intros i i' row row' b Hb Hb'.
    apply elem_of_lookup_imap in Hb as (j & ? & -> & _).
    apply elem_of_lookup_imap in Hb' as (j' & ? & [= E _] & _). lia.
Qed.

Lemma length_concat_imap {A B} (f : nat -> list A -> list B) (l : list (list A)) :
  (forall i row, length (f i row) = length row) ->
  length (concat (imap f l)) = length (concat l).
Proof.
  revert f. induction l as [|row l IH]; intros f Hf; simpl; [done|].
  rewrite !length_app, Hf. f_equal. apply IH. intros i r. apply Hf.
Qed.

(** X4. A grid cell is rendered exactly for the positions that have a
    letter, each position once, and no two rendered cells carry the same
    [data-position] key. *)
Theorem rendered_cells_are_the_grid board (p : Position) :
  (p ∈ renderedPositions board <-> inGrid board p)
  /\ NoDup (renderedPositions board)
  /\ NoDup (dataPositions board)
  /\ length (dataPositions board) = length (concat board).
Proof.
  split; [apply elem_of_renderedPositions|].
  split; [apply NoDup_renderedPositions|]. split.
  - unfold dataPositions. apply (NoDup_fmap_2_strong cellKey).
    + intros x y _ _. apply cellKey_inj.
    + apply NoDup_renderedPositions.
  - unfold dataPositions, renderedPositions. rewrite length_map.
    apply length_concat_imap. intros i row. apply length_imap.
Qed.

(** ** Invariants of the selection *)

Lemma isLocked_setSelectedCells cells st p :
  isLocked (setSelectedCells cells st) p = isLocked st p.
Proof. done. Qed.

Lemma checkForWord_clears g st cells st' :
  checkForWord g st cells = Some st' -> selectedCells st' = [].
Proof.
  unfold checkForWord. destruct (selectedWord _ _); [|done]. by intros [= <-].
Qed.

(** What one click does to the selection. *)
Lemma selectCell_selection g st (p : Position) :
  selectCell g st p = st
  \/ selectedCells (selectCell g st p) = []
  \/ (isLocked st p = false
      /\ (forall l, last (selectedCells st) = Some l -> isAdjacent l p = true)
      /\ selectCell g st p = setSelectedCells (selectedCells st ++ [p]) st).
Proof.
  unfold selectCell, onClick. destruct (isLocked st p) eqn:Hl; [by left|].
  unfold handleCellClick. replace (fst p, snd p) with p by by destruct p.
  destruct (last (selectedCells st)) as [l|] eqn:El.
  - destruct (samePosition l p).
    + destruct (checkForWord _ _ _) as [st'|] eqn:E; [|by left].
      right; left. simpl. by apply checkForWord_clears in E.
    + destruct (isAdjacent l p) eqn:Hadj; simpl; [|by right; left].
      rewrite Hl. simpl. right; right. split; [done|]. split; [|done].
      by intros ? [= <-].
  - simpl. right; right. by split.
Qed.

Lemma isChain_snoc (cells : list Position) (p : Position) :
  isChain cells = true ->
  (forall l, last cells = Some l -> isAdjacent l p = true) ->
  isChain (cells ++ [p]) = true.
Proof.
  induction cells as [|x cells IH]; [done|].
  destruct cells as [|y cells].
  - intros _ H. simpl. by rewrite (H x).
  - intros Hc H. simpl in Hc. apply andb_true_iff in Hc as [Hxy Hc].
    change (isAdjacent x y && isChain ((y :: cells) ++ [p]) = true).
    rewrite Hxy. simpl. by apply IH.
Qed.

Lemma isChain_app_adjacent (sel rest : list Position) (p l : Position) :
  isChain (sel ++ p :: rest) = true -> last sel = Some l -> isAdjacent l p = true.
Proof.
  induction sel as [|x sel IH]; [done|].
  destruct sel as [|y sel].
  - simpl. intros Hc [= <-]. by apply andb_true_iff in Hc as [? _].
  - intros Hc Hl. change (isAdjacent x y && isChain ((y :: sel) ++ p :: rest) = true) in Hc.
    apply andb_true_iff in Hc as [_ Hc]. by apply IH.
Qed.

(** The selection is a chain of unlocked cells, and stays one. *)
Lemma selectCell_chain g st (p : Position) :
  isChain (selectedCells st) = true ->
  (forall q, q ∈ selectedCells st -> isLocked st q = false) ->
  isChain (selectedCells (selectCell g st p)) = true
  /\ (forall q, q ∈ selectedCells (selectCell g st p) ->
        isLocked (selectCell g st p) q = false).
Proof.
  intros Hc Hu.
  destruct (selectCell_selection g st p) as [-> | [E | (Hl & Hadj & ->)]]; [done| |].
  - rewrite E. split; [done|]. by intros q ?%elem_of_nil.
  - simpl. split; [by apply isChain_snoc|].
    intros q [Hq| ->%list_elem_of_singleton]%elem_of_app; [by apply Hu|done].
Qed.

Lemma selectCells_chain g st (clicks : list Position) :
  isChain (selectedCells st) = true ->
  (forall q, q ∈ selectedCells st -> isLocked st q = false) ->
  isChain (selectedCells (selectCells g st clicks)) = true
  /\ (forall q, q ∈ selectedCells (selectCells g st clicks) ->
        isLocked (selectCells g st clicks) q = false).
Proof.
  revert st. induction clicks as [|p clicks IH]; intros st Hc Hu; simpl; [done|].
  destruct (selectCell_chain g st p Hc Hu). by apply IH.
Qed.

(** X5. Along any sequence of clicks on a fresh board the selected cells
    form a chain in which each cell is adjacent to the next, and no
    selected cell is locked. *)
Theorem selection_is_a_chain_of_unlocked_cells g (clicks : list Position) :
  isChain (selectedCells (selectCells g initialState clicks)) = true
  /\ (forall q, q ∈ selectedCells (selectCells g initialState clicks) ->
        isLocked (selectCells g initialState clicks) q = false).
Proof. apply selectCells_chain; [done|]. by intros q ?%elem_of_nil. Qed.

Lemma lettersAt_inGrid board (cells : list Position) :
  (forall p, p ∈ cells -> inGrid board p) -> is_Some (lettersAt board cells).
Proof.
  induction cells as [|p cells IH]; intros H; simpl; [done|].
  destruct (H p) as [letter ->]; [by left|].
  destruct IH as [ls ->]; [|done]. intros q Hq. apply H. by right.
Qed.

Lemma onClick_inGrid g st (p : Position) :
  (forall q, q ∈ selectedCells st -> inGrid (grid g) q) -> is_Some (onClick g st p).
Proof.
  intros H. unfold onClick. destruct (isLocked st p); [done|].
  unfold handleCellClick. destruct (last (selectedCells st)); [|done].
  destruct (samePosition _ _); [|by destruct (_ || _)].
  unfold checkForWord, selectedWord.
  by destruct (lettersAt_inGrid _ _ H) as [ls ->].
Qed.

Lemma selectCell_inGrid g st (p : Position) :
  inGrid (grid g) p ->
  (forall q, q ∈ selectedCells st -> inGrid (grid g) q) ->
  forall q, q ∈ selectedCells (selectCell g st p) -> inGrid (grid g) q.
Proof.
  intros Hp H.
  destruct (selectCell_selection g st p) as [-> | [E | (_ & _ & ->)]]; [done| |].
  - rewrite E. by intros q ?%elem_of_nil.
  - simpl. intros q [Hq| ->%list_elem_of_singleton]%elem_of_app; [by apply H|done].
Qed.

Lemma selectCells_inGrid g st (clicks : list Position) :
  (forall p, p ∈ clicks -> inGrid (grid g) p) ->
  (forall q, q ∈ selectedCells st -> inGrid (grid g) q) ->
  forall q, q ∈ selectedCells (selectCells g st clicks) -> inGrid (grid g) q.
Proof.
  revert st. induction clicks as [|p clicks IH]; intros st Hcl H; simpl; [done|].
  apply IH; [intros; apply Hcl; by right|].
  apply selectCell_inGrid; [apply Hcl; by left|done].
Qed.

(** X6. When every click is on a rendered cell, the click handler never
    throws: after any such sequence on a fresh board every selected cell
    is inside the grid, the selected word can be read off the grid, and
    the next click returns a state. *)
Theorem rendered_clicks_never_throw g (clicks : list Position) (p : Position) :
  (forall q, q ∈ clicks -> q ∈ renderedPositions (grid g)) ->
  (forall q, q ∈ selectedCells (selectCells g initialState clicks) ->
     q ∈ renderedPositions (grid g))
  /\ is_Some (selectedWord (grid g)
                (selectedCells (selectCells g initialState clicks)))
  /\ is_Some (onClick g (selectCells g initialState clicks) p).
Proof.
  intros Hcl.
  assert (forall q, q ∈ selectedCells (selectCells g initialState clicks) ->
            inGrid (grid g) q) as Hin.
  { apply selectCells_inGrid; [|by intros q ?%elem_of_nil].
    intros q Hq. by apply elem_of_renderedPositions, Hcl. }
  split; [intros q Hq; by apply elem_of_renderedPositions, Hin|].
  split; [|by apply onClick_inGrid].
  unfold selectedWord. by destruct (lettersAt_inGrid _ _ Hin) as [ls ->].
Qed.

Lemma rendered_clicks_never_throw_witness :
  is_Some (onClick cats (selectCells cats initialState [(0, 0); (1, 1); (2, 2)]) (2, 2)).
Proof.
  refine (proj2 (proj2 (rendered_clicks_never_throw cats
            [(0, 0); (1, 1); (2, 2)] (2, 2) _))).
  intros q Hq. apply elem_of_renderedPositions.
  repeat (apply elem_of_cons in Hq as [-> | Hq]; [by eexists|]).
  by apply elem_of_nil in Hq.
Defined.

(** ** Finding a word *)

Lemma checkForWord_success g st cells st' :
  checkForWord g st cells = Some st' ->
  foundWords st' <> foundWords st ->
  exists candidate pl,
    selectedWord (grid g) cells = Some candidate
    /\ findPlacement g candidate cells = Some pl
    /\ (word pl ∉ foundWords st)
    /\ st' = setSelectedCells [] (markFound g st cells pl).
Proof.
  unfold checkForWord.
  destruct (selectedWord (grid g) cells) as [candidate|]; [|done].
  simpl. intros [= <-] Hne.
  destruct (newFind st _) as [pl|] eqn:E.
  - apply newFind_Some in E as [Hf Hn]. by exists candidate, pl.
  - destruct Hne. by destruct (0 <? length cells)%nat.
Qed.

Lemma isLocked_markFound g st (cells : list Position) pl (p : Position) :
  isLocked (setSelectedCells [] (markFound g st cells pl)) p = true
  <-> p ∈ cells \/ isLocked st p = true.
Proof.
  rewrite !isLocked_spec. simpl. rewrite addCells_spec, elem_of_union,
    elem_of_list_to_set.
  change (map cellKey cells) with (cellKey <$> cells).
  rewrite list_elem_of_fmap. split; (intros [H|H]; [left|by right]).
  - destruct H as (q & E & Hq). by apply cellKey_inj in E as ->.
  - by exists p.
Qed.

Lemma size_add_new (w : string) (X : gset string) :
  w ∉ X -> size ({[w]} ∪ X) = S (size X).
Proof. intros H. rewrite size_union, size_singleton; [done|set_solver]. Qed.

(** X7. A validation that changes the found words adds exactly one word,
    the word of a placement whose stored path is the clicked path forwards
    or reversed; it locks exactly the clicked cells in addition to those
    locked before, shows the spangram message if the word is the spangram
    and the word message otherwise, and empties the selection. *)
Theorem successful_find_effect g st (cells : list Position) st' :
  checkForWord g st cells = Some st' ->
  foundWords st' <> foundWords st ->
  exists pl,
    pl ∈ allPlacements g
    /\ (cells = path pl \/ cells = rev (path pl))
    /\ (word pl ∉ foundWords st)
    /\ foundWords st' = {[word pl]} ∪ foundWords st
    /\ size (foundWords st') = S (size (foundWords st))
    /\ (forall p, isLocked st' p = true <-> p ∈ cells \/ isLocked st p = true)
    /\ message st'
       = (if String.eqb (word pl) (spangram g)
          then spangramMessage else wordMessage (word pl))
    /\ selectedCells st' = [].
Proof.
  intros Hck Hne.
  destruct (checkForWord_success _ _ _ _ Hck Hne) as (cand & pl & _ & Hf & Hn & ->).
  apply findPlacement_Some_matches in Hf as (Hin & _ & Hp).
  exists pl. repeat split; try done.
  - simpl. by apply size_add_new.
  - by apply isLocked_markFound.
  - by apply isLocked_markFound.
Qed.

Lemma successful_find_effect_witness :
  exists pl, pl ∈ allPlacements hiOk
    /\ foundWords (selectCell hiOk okSelected (1, 1))
       = {[word pl]} ∪ foundWords okSelected.
Proof.
  destruct (successful_find_effect hiOk okSelected okPath
              (selectCell hiOk okSelected (1, 1)))
    as (pl & Hin & _ & _ & Hw & _); [reflexivity | by vm_compute |].
  exists pl. split; [exact Hin | exact Hw].
Defined.

Lemma selectCells_app g st (a b : list Position) :
  selectCells g st (a ++ b) = selectCells g (selectCells g st a) b.
Proof. apply foldl_app. Qed.

(** Clicking along a chain of unlocked cells selects them one after the
    other. *)
Lemma selectCells_trace g (cells : list Position) st :
  (forall p, p ∈ cells -> isLocked st p = false) ->
  isChain (selectedCells st ++ cells) = true ->
  selectCells g st cells = setSelectedCells (selectedCells st ++ cells) st.
Proof.
  revert st. induction cells as [|p cells IH]; intros st Hu Hc.
  - simpl. rewrite app_nil_r. by destruct st.
  - assert (selectCell g st p = setSelectedCells (selectedCells st ++ [p]) st) as E.
    { rewrite selectCell_unlocked by (apply Hu; by left).
      destruct (last (selectedCells st)) as [l|] eqn:El.
      - rewrite (handleCellClick_append _ _ _ l); [done|done| |apply Hu; by left].
        by eapply isChain_app_adjacent.
      - apply last_None in El. rewrite handleCellClick_empty by done.
        rewrite El. by destruct p. }
    simpl. rewrite E, IH.
    + simpl. by rewrite <- app_assoc.
    + intros q Hq. rewrite isLocked_setSelectedCells. apply Hu. by right.
    + simpl. by rewrite <- app_assoc.
Qed.

(** X8. Tracing a placement finds it: from an empty selection, when the
    stored path is a chain of unlocked cells along which the grid spells
    the placement's word (ignoring case) and no placed word with these
    letters has been found yet, clicking the cells of the path in order
    and the last one again adds one such word to the found words, locks
    exactly the cells of the path, shows a success message and empties the
    selection. *)
Theorem tracing_a_placement_finds_it g st pl w (lastCell : Position) :
  pl ∈ allPlacements g ->
  selectedCells st = [] ->
  last (path pl) = Some lastCell ->
  isChain (path pl) = true ->
  (forall p, p ∈ path pl -> isLocked st p = false) ->
  spells g (path pl) w ->
  Str.equalIgnoringCase (word pl) w ->
  (forall pl', pl' ∈ allPlacements g ->
     Str.equalIgnoringCase (word pl') w -> word pl' ∉ foundWords st) ->
  selectedCells (selectCells g st (path pl ++ [lastCell])) = []
  /\ (exists pl', pl' ∈ allPlacements g
        /\ Str.equalIgnoringCase (word pl') w
        /\ foundWords (selectCells g st (path pl ++ [lastCell]))
           = {[word pl']} ∪ foundWords st)
  /\ size (foundWords (selectCells g st (path pl ++ [lastCell])))
     = S (size (foundWords st))
  /\ (forall p, isLocked (selectCells g st (path pl ++ [lastCell])) p = true
                <-> p ∈ path pl \/ isLocked st p = true)
  /\ type (message (selectCells g st (path pl ++ [lastCell]))) = Some success.
Proof.
  intros Hin Hsel Hlast Hchain Hu Hspell Hw Hfresh.
  rewrite selectCells_app, (selectCells_trace g (path pl) st);
    [|exact Hu|rewrite Hsel; exact Hchain].
  rewrite Hsel. simpl.
  set (st1 := setSelectedCells (path pl) st).
  assert (isLocked st1 lastCell = false) as Hl.
  { apply Hu. destruct (path pl) as [|x l] using rev_ind; [done|].
    rewrite last_snoc in Hlast. injection Hlast as ->.
    apply elem_of_app. right. by left. }
  rewrite (selectCell_unlocked _ _ _ Hl).
  rewrite (handleCellClick_complete g st1 lastCell Hlast).
  destruct (findPlacement g w (path pl)) as [pl'|] eqn:Hf.
  2:{ assert (is_Some (findPlacement g w (path pl))) as [? ?]; [|congruence].
      apply findPlacement_Some_iff. exists pl. auto. }
  pose proof (findPlacement_Some_matches _ _ _ _ Hf) as (Hin' & Hw' & _).
  assert (word pl' ∉ foundWords st1) as Hn by by apply Hfresh.
  change (selectedCells st1) with (path pl).
  rewrite (checkForWord_found g st1 (path pl) w pl' Hspell Hf Hn). simpl.
  split; [done|]. split; [by exists pl'|].
  split; [by apply size_add_new|]. split.
  - intros p. apply (isLocked_markFound g st1 (path pl) pl' p).
  - unfold successMessage. by destruct (String.eqb _ _).
Qed.

Lemma tracing_a_placement_finds_it_witness :
  size (foundWords (selectCells cats initialState (catPath ++ [(0, 2)]))) = 1%nat.
Proof.
  refine (proj1 (proj2 (proj2 (tracing_a_placement_finds_it cats initialState
            (mkWordPlacement "CAT" catPath) "CAT" (0, 2) _ _ _ _ _ _ _ _)))).
  - apply list_elem_of_In. right. left. reflexivity.
  - reflexivity.
  - reflexivity.
  - reflexivity.
  - intros p _. reflexivity.
  - reflexivity.
  - by vm_compute.
  - intros pl' _ _. apply not_elem_of_empty.
Defined.

(** ** Reversed traces and overlapping placements *)

Lemma lettersAt_app board (a b : list Position) :
  lettersAt board (a ++ b)
  = match lettersAt board a, lettersAt board b with
    | Some x, Some y => Some (x ++ y)
    | _, _ => None
    end.
Proof.
  induction a as [|p a IH]; simpl.
  - by destruct (lettersAt board b).
  - destruct (cellAt board p); [|done]. rewrite IH.
    destruct (lettersAt board a); [|done]. by destruct (lettersAt board b).
Qed.

Lemma lettersAt_rev board (cells : list Position) :
  lettersAt board (rev cells) = (fun letters => rev letters) <$> lettersAt board cells.
Proof.
  induction cells as [|p cells IH]; [done|].
  simpl. rewrite lettersAt_app, IH. simpl.
  destruct (cellAt board p); simpl.
  - by destruct (lettersAt board cells).
  - by destruct (lettersAt board cells).
Qed.

Lemma equalIgnoringCase_trans_l a b c :
  Str.equalIgnoringCase a b ->
  (Str.equalIgnoringCase a c <-> Str.equalIgnoringCase b c).
Proof.
  rewrite <- !StrFacts.toLowerCase_equalIgnoringCase. intros ->. done.
Qed.

(** X9. The candidate word is read in click order. For a placement along
    whose stored path the grid spells its word, the backwards trace spells
    the letters in reverse order, and the placement matches it exactly when
    the letters read the same in both directions, ignoring case. *)
Theorem reversed_trace_needs_palindrome g pl w :
  spells g (path pl) w ->
  Str.equalIgnoringCase (word pl) w ->
  exists letters,
    lettersAt (grid g) (path pl) = Some letters
    /\ w = Str.join "" (map (default "") letters)
    /\ spells g (rev (path pl)) (Str.join "" (map (default "") (rev letters)))
    /\ (placementMatches (Str.join "" (map (default "") (rev letters)))
          (pathToString (rev (path pl))) pl = true
        <-> Str.equalIgnoringCase w
              (Str.join "" (map (default "") (rev letters)))).
Proof.
  unfold spells, selectedWord. intros Hs Hw.
  destruct (lettersAt (grid g) (path pl)) as [letters|] eqn:El; [|done].
  injection Hs as <-. exists letters.
  split; [done|]. split; [done|]. split.
  - by rewrite lettersAt_rev, El.
  - rewrite placementMatches_spec, (equalIgnoringCase_trans_l _ _ _ Hw). tauto.
Qed.

Lemma reversed_trace_needs_palindrome_witness :
  exists letters,
    lettersAt (grid noon) noonPath = Some letters
    /\ placementMatches (Str.join "" (map (default "") (rev letters)))
         (pathToString (rev noonPath)) (mkWordPlacement "NOON" noonPath) = true.
Proof.
  destruct (reversed_trace_needs_palindrome noon (mkWordPlacement "NOON" noonPath)
              "NOON") as (letters & Hl & Hw & _ & Hm);
    [reflexivity | by vm_compute |].
  exists letters. split; [exact Hl|].
  apply Hm. injection Hl as <-. by vm_compute.
Defined.

Lemma selection_unlocked g (clicks : list Position) (p : Position) :
  p ∈ selectedCells (selectCells g initialState clicks) ->
  isLocked (selectCells g initialState clicks) p = true -> False.
Proof.
  intros Hin Hl.
  destruct (selectCells_chain g initialState clicks) as [_ Hu];
    [done | by intros q ?%elem_of_nil |].
  by rewrite (Hu p Hin) in Hl.
Qed.

(** X10. Validation never matches a placement that has a locked cell:
    along any sequence of clicks on a fresh board the selection holds no
    locked cell, so once a cell of a stored path is locked (by a find of
    an overlapping placement, say) that placement is not matched by any
    later selection. *)
Theorem placement_with_locked_cell_is_never_matched
    g (clicks more : list Position) pl candidate (p : Position) :
  p ∈ path pl ->
  isLocked (selectCells g initialState clicks) p = true ->
  findPlacement g candidate
    (selectedCells (selectCells g initialState (clicks ++ more)))
  <> Some pl.
Proof.
  intros Hp Hl Hf.
  apply findPlacement_Some_matches in Hf as (_ & _ & Hpath).
  destruct (selection_unlocked g (clicks ++ more) p) as [].
  - destruct Hpath as [-> | ->]; [done|].
    by rewrite list_elem_of_In, <- in_rev, <- list_elem_of_In.
  - rewrite selectCells_app.
    apply isLocked_spec in Hl. apply isLocked_spec.
    by apply (selectCells_grows g (selectCells g initialState clicks) more).
Qed.

Lemma placement_with_locked_cell_is_never_matched_witness :
  findPlacement cats "CATS"
    (selectedCells (selectCells cats initialState
                      ([(0, 0); (0, 1); (0, 2); (0, 2)] ++ [(0, 3); (0, 3)])))
  <> Some (mkWordPlacement "CATS" catsPath).
Proof.
  apply (placement_with_locked_cell_is_never_matched cats
           [(0, 0); (0, 1); (0, 2); (0, 2)] [(0, 3); (0, 3)]
           (mkWordPlacement "CATS" catsPath) "CATS" (0, 0)).
  - by left.
  - reflexivity.
Defined.

(** ** The completion notice over a whole game *)

Lemma selectCell_notice g st (p : Position) :
  foundWords st ⊆ placedWords g ->
  (timers st = [] /\ (size (foundWords st) < length (allPlacements g))%nat)
  \/ (timers st = completionNotice
      /\ size (foundWords st) = length (allPlacements g)) ->
  (timers (selectCell g st p) = []
   /\ (size (foundWords (selectCell g st p)) < length (allPlacements g))%nat)
  \/ (timers (selectCell g st p) = completionNotice
      /\ size (foundWords (selectCell g st p)) = length (allPlacements g)).
Proof.
  intros Hsub Hinv.
  destruct (selectCell_cases g st p) as [(pl & Hn & Hin & ->)|(cells & m & ->)];
    [|done].
  cbn [timers foundWords setSelectedCells markFound].
  rewrite (size_add_new _ _ Hn).
  destruct Hinv as [[Ht Hlt]|[Ht Heq]].
  - rewrite Ht. destruct (Nat.eqb_spec (S (size (foundWords st)))
                            (length (allPlacements g))); [by right|left].
    split; [done|lia].
  - exfalso. apply Hn.
    assert (foundWords st = placedWords g) as ->.
    { apply set_subseteq_size_eq; [done|].
      rewrite Heq. apply size_placedWords. }
    apply elem_of_list_to_set, list_elem_of_fmap. eauto.
Qed.

Lemma selectCells_notice g (clicks : list Position) st :
  foundWords st ⊆ placedWords g ->
  (timers st = [] /\ (size (foundWords st) < length (allPlacements g))%nat)
  \/ (timers st = completionNotice
      /\ size (foundWords st) = length (allPlacements g)) ->
  (timers (selectCells g st clicks) = []
   /\ (size (foundWords (selectCells g st clicks)) < length (allPlacements g))%nat)
  \/ (timers (selectCells g st clicks) = completionNotice
      /\ size (foundWords (selectCells g st clicks)) = length (allPlacements g)).
Proof.
  revert st. induction clicks as [|p clicks IH]; intros st Hsub Hinv; [done|].
  simpl. apply IH; [by apply selectCell_placedWords|by apply selectCell_notice].
Qed.

Lemma initial_notice g :
  timers initialState = []
  /\ (size (foundWords initialState) < length (allPlacements g))%nat.
Proof.
  split; [done|]. rewrite length_allPlacements.
  change (foundWords initialState) with (∅ : gset string).
  rewrite size_empty. lia.
Qed.

(** X11. Over a whole game on a fresh board the timer queue holds the
    completion notice exactly when the number of found words equals the
    number of placements, and nothing otherwise: the notice is scheduled
    once, at the find that completes the puzzle, and never again. *)
Theorem completion_notice_is_scheduled_once g (clicks : list Position) :
  timers (selectCells g initialState clicks)
  = (if Nat.eqb (size (foundWords (selectCells g initialState clicks)))
                (length (allPlacements g))
     then completionNotice else [])
  /\ (size (foundWords (selectCells g initialState clicks))
      <= length (allPlacements g))%nat.
Proof.
  destruct (selectCells_notice g clicks initialState) as [[Ht Hlt]|[Ht Heq]];
    [set_solver | left; apply initial_notice | |].
  - rewrite Ht. split; [|lia].
    destruct (Nat.eqb_spec (size (foundWords (selectCells g initialState clicks)))
                (length (allPlacements g))); [lia|done].
  - rewrite Ht, Heq, Nat.eqb_refl. split; [done|lia].
Qed.

Lemma size_list_to_set_lt (l : list string) :
  ~ NoDup l -> (size (list_to_set l : gset string) < length l)%nat.
Proof.
  induction l as [|x l IH]; intros Hdup; [destruct Hdup; constructor|].
  rewrite list_to_set_cons. simpl.
  destruct (decide (x ∈ l)) as [Hin|Hnot].
  - replace ({[x]} ∪ list_to_set l) with (list_to_set l : gset string)
      by (apply (elem_of_list_to_set (C:=gset string)) in Hin; set_solver).
    pose proof (size_list_to_set_le l). lia.
  - assert (~ NoDup l) as Hl by (intros H; apply Hdup; by constructor).
    specialize (IH Hl).
    rewrite size_union_alt, size_singleton.
    assert (list_to_set l ∖ {[x]} ⊆ (list_to_set l : gset string)) as Hs
      by set_solver.
    apply subseteq_size in Hs. lia.
Qed.

(** X12. When two placements carry the same word (a theme word equal to
    the spangram, or a theme word placed twice), the number of found words
    stays below the number of placements, and the completion notice is
    never scheduled. *)
Theorem repeated_word_prevents_completion g (clicks : list Position) :
  ~ NoDup (map word (allPlacements g)) ->
  (size (foundWords (selectCells g initialState clicks))
   < length (allPlacements g))%nat
  /\ timers (selectCells g initialState clicks) = [].
Proof.
  intros Hdup.
  assert (size (foundWords (selectCells g initialState clicks))
          < length (allPlacements g))%nat as Hlt.
  { pose proof (selectCells_placedWords g initialState clicks) as Hs.
    apply subseteq_size in Hs; [|set_solver].
    pose proof (size_list_to_set_lt _ Hdup) as Hd.
    rewrite length_map in Hd. unfold placedWords in Hs. lia. }
  split; [done|].
  destruct (selectCells_notice g clicks initialState) as [[Ht _]|[_ Heq]];
    [set_solver | left; apply initial_notice | done | lia].
Qed.

Lemma repeated_word_prevents_completion_witness :
  timers (selectCells hiHi initialState
            [(0, 0); (0, 1); (0, 1); (1, 0); (1, 1); (1, 1)]) = [].
Proof.
  refine (proj2 (repeated_word_prevents_completion hiHi
            [(0, 0); (0, 1); (0, 1); (1, 0); (1, 1); (1, 1)] _)).
  intros H. apply NoDup_cons in H as [H _]. apply H. by left.
Defined.

(** ** Cell style and messages *)

Lemma unlocked_click_changes_selection g st (p : Position) :
  isLocked st p = false ->
  is_Some (selectedWord (grid g) (selectedCells st)) ->
  selectedCells (selectCell g st p) <> selectedCells st.
Proof.
  intros Hl [w Hw]. rewrite selectCell_unlocked by done.
  unfold handleCellClick.
  destruct (last (selectedCells st)) as [l|] eqn:El.
  - assert (selectedCells st <> []) as Hne by (intros E; by rewrite E in El).
    destruct (samePosition _ _).
    + unfold checkForWord. rewrite Hw. simpl. congruence.
    + destruct (_ || _); simpl; [congruence|apply app_singleton_ne].
  - simpl. apply app_singleton_ne.
Qed.

(** X13. The style of a cell does not depend on the selection: a selected
    cell is styled like an unselected one. The cursor is [not-allowed]
    exactly on the locked cells, which are the cells with the green
    background and, as long as the selected word can be read off the grid,
    exactly the cells on which a click changes nothing. *)
Theorem cell_style_shows_locked_cells g st (row col : Z) (cells : list Position) :
  is_Some (selectedWord (grid g) (selectedCells st)) ->
  getCellStyle (setSelectedCells cells st) row col = getCellStyle st row col
  /\ (cursor (getCellStyle st row col) = "not-allowed"
      <-> isLocked st (row, col) = true)
  /\ (backgroundColor (getCellStyle st row col) = "rgba(72, 187, 120, 0.2)"
      <-> isLocked st (row, col) = true)
  /\ (cursor (getCellStyle st row col) = "not-allowed"
      <-> selectCell g st (row, col) = st).
Proof.
  intros Hw.
  assert (cursor (getCellStyle st row col) = "not-allowed"
          <-> isLocked st (row, col) = true) as Hcur.
  { unfold getCellStyle. destruct (isLocked st (row, col)); [done|].
    by destruct (existsb _ _). }
  split; [|split; [done|split]].
  - unfold getCellStyle. rewrite isLocked_setSelectedCells.
    destruct (isLocked st (row, col)); [done|]. simpl.
    by do 2 destruct (existsb _ _).
  - unfold getCellStyle. destruct (isLocked st (row, col)); [done|].
    by destruct (existsb _ _).
  - rewrite Hcur. split; [apply selectCell_locked|].
    intros E. destruct (isLocked st (row, col)) eqn:Hl; [done|].
    destruct (unlocked_click_changes_selection g st (row, col) Hl Hw).
    by rewrite E.
Qed.

Lemma cell_style_shows_locked_cells_witness :
  cursor (getCellStyle catFound 0 1) = "not-allowed".
Proof.
  apply (proj1 (proj2 (cell_style_shows_locked_cells cats catFound 0 1 []
                         (ex_intro _ "" eq_refl)))).
  reflexivity.
Defined.

Lemma successMessage_shown g w : String.eqb (text (successMessage g w)) "" = false.
Proof. unfold successMessage. by destruct (String.eqb w (spangram g)). Qed.

Lemma selectCell_message g st (p : Position) :
  message (selectCell g st p) = message st
  \/ message (selectCell g st p) = tryAgainMessage
  \/ exists w, message (selectCell g st p) = successMessage g w.
Proof.
  unfold selectCell, onClick. destruct (isLocked st p); [by left|].
  destruct (handleCellClick g st (fst p) (snd p)) as [st'|] eqn:E; [|by left].
  simpl. apply handleCellClick_cases in E as [E|[cells ->]]; [|by left].
  apply checkForWord_cases in E as [(pl & _ & _ & ->)|[-> | ->]]; simpl; eauto.
Qed.

Lemma selectCell_messageShown g st (p : Position) :
  messageShown st = true -> messageShown (selectCell g st p) = true.
Proof.
  unfold messageShown.
  destruct (selectCell_message g st p) as [-> | [-> | [w ->]]]; [done|done|].
  by rewrite successMessage_shown.
Qed.

(** X14. No click, no new board and no completion notice ever clears the
    message: once a message is shown, a message stays shown for the rest
    of the session, also on the boards of later games. *)
Theorem message_is_never_cleared g st (clicks : list Position) :
  messageShown st = true ->
  messageShown (selectCells g st clicks) = true
  /\ messageShown (resetEffect (selectCells g st clicks)) = true
  /\ messageShown (fireTimer allFoundMessage (selectCells g st clicks)) = true.
Proof.
  intros Hs.
  assert (messageShown (selectCells g st clicks) = true) as H.
  { revert st Hs. induction clicks as [|p clicks IH]; intros st Hs; [done|].
    simpl. by apply IH, selectCell_messageShown. }
  done.
Qed.

Lemma message_is_never_cleared_witness :
  messageShown (resetEffect (selectCells cats catFound [(0, 3); (1, 3)])) = true.
Proof.
  refine (proj1 (proj2 (message_is_never_cleared cats catFound
                          [(0, 3); (1, 3)] _))).
  reflexivity.
Defined.

(** ** The puzzle request *)

(** X15. With a non-empty API key, whatever the exchange does and with
    either service module, the loading flag is off afterwards, the error is
    cleared exactly when the exchange delivered a board, and in that case
    the delivered board is installed and the game starts with an empty
    selection, no found word and no locked cell. *)
Theorem request_outcome (a : App) (x : Exchange) a' :
  apiKey (container a) <> "" ->
  a' = handleGenerateGame generateGame a x
  \/ a' = handleGenerateGame generateGameLocal a x ->
  isLoading (container a') = false
  /\ (error (container a') = None <-> exists b, x = Ok b)
  /\ (forall b, x = Ok b ->
        board (container a') = Some b
        /\ exists st, game a' = Some st
             /\ selectedCells st = []
             /\ foundWords st = ∅
             /\ foundPaths st = ∅).
Proof.
  intros Hk Ha'.
  assert (exists r, (r = generateGame x \/ r = generateGameLocal x)
            /\ a' = finishGenerate
                      (mkApp (mkContainer (apiKey (container a))
                                (board (container a)) None true) (game a)) r)
    as (r & Hr & ->).
  { destruct Ha' as [-> | ->];
      [exists (generateGame x) | exists (generateGameLocal x)];
      (split; [auto|]); unfold handleGenerateGame, beginGenerate;
      by destruct (String.eqb_spec (apiKey (container a)) ""). }
  assert ((exists e, r = inl e /\ forall b, x <> Ok b)
          \/ (exists b, x = Ok b /\ r = inr b)) as [(e & -> & Hx)|(b & -> & ->)].
  { destruct x as [e|statusText detail|e|b]; destruct Hr as [-> | ->]; simpl;
      try (right; eexists; split; reflexivity);
      left; eexists; (split; [reflexivity|intros ?; discriminate]). }
  - simpl. split; [done|]. split; [|by intros b ?%Hx].
    split; [done|]. by intros [b ?%Hx].
  - simpl. split; [done|]. split; [split; [by eauto|done]|].
    intros b' [= <-]. split; [done|]. by eexists.
Qed.

Lemma request_outcome_witness :
  board (container (handleGenerateGame generateGame
                      (mkApp (mkContainer "key" None None false) None) (Ok hiOk)))
  = Some hiOk.
Proof.
  refine (proj1 (proj2 (proj2 (request_outcome
            (mkApp (mkContainer "key" None None false) None) (Ok hiOk) _ _
            (or_introl eq_refl))) hiOk eq_refl)).
  discriminate.
Defined.

(** X16. With an empty API key nothing is requested: whatever the
    provider would answer, the board, the game and the loading flag stay as
    they are and the error asks for the key. *)
Theorem empty_key_requests_nothing (gen : Exchange -> Thrown + Board)
    (a : App) (x : Exchange) :
  apiKey (container a) = "" ->
  board (container (handleGenerateGame gen a x)) = board (container a)
  /\ game (handleGenerateGame gen a x) = game a
  /\ isLoading (container (handleGenerateGame gen a x)) = isLoading (container a)
  /\ error (container (handleGenerateGame gen a x))
     = Some "Please enter your API key"
  /\ handleGenerateGame gen a x = fst (beginGenerate a).
Proof.
  intros Hk. unfold handleGenerateGame, beginGenerate. by rewrite Hk.
Qed.

Lemma empty_key_requests_nothing_witness :
  board (container (handleGenerateGame generateGame
                      (mkApp (mkContainer "" (Some cats) None false) (Some catFound))
                      (Ok hiOk)))
  = Some cats.
Proof.
  refine (proj1 (empty_key_requests_nothing generateGame
            (mkApp (mkContainer "" (Some cats) None false) (Some catFound))
            (Ok hiOk) _)).
  reflexivity.
Defined.

(** X17. The two service modules resolve and reject on the same
    exchanges, and they reject with the same value except for a response
    that is not ok and carries a non-empty detail, which the deployed
    module reports in place of the status line. *)
Theorem service_modules_agree (x : Exchange) :
  ((exists b, generateGame x = inr b) <-> exists b, x = Ok b)
  /\ ((exists b, generateGameLocal x = inr b) <-> exists b, x = Ok b)
  /\ ((forall statusText d, x = NotOk statusText (Some d) -> d = "") ->
      generateGame x = generateGameLocal x)
  /\ (forall statusText d, x = NotOk statusText (Some d) -> d <> "" ->
      generateGame x = inl (ErrorObject d)
      /\ generateGameLocal x = inl (ErrorObject (failedPrefix +:+ statusText))).
Proof.
  repeat split.
  - intros [b H]. destruct x; try done. by eexists.
  - intros [b ->]. by eexists.
  - intros [b H]. destruct x; try done. by eexists.
  - intros [b ->]. by eexists.
  - intros H. destruct x as [|statusText [d|]| |]; try done.
    by rewrite (H statusText d eq_refl).
  - subst x. simpl. unfold orElse. by destruct (String.eqb_spec d "").
  - by subst x.
Qed.

Lemma service_modules_agree_witness :
  generateGame (NotOk "Unauthorized" (Some "Invalid API key"))
  = inl (ErrorObject "Invalid API key").
Proof.
  destruct (service_modules_agree (NotOk "Unauthorized" (Some "Invalid API key")))
    as (_ & _ & _ & H).
  refine (proj1 (H "Unauthorized" "Invalid API key" eq_refl _)).
  discriminate.
Defined.

(** X18. Validation of an empty path: unless some placement is stored
    with an empty path, nothing is found and, unlike for a non-empty path,
    no retry notice is shown; the state is the one before with an empty
    selection. *)
Theorem empty_path_is_not_a_word g st :
  (forall pl, pl ∈ allPlacements g -> path pl <> []) ->
  checkForWord g st [] = Some (setSelectedCells [] st)
  /\ message (setSelectedCells [] st) = message st.
Proof.
  intros Hne. split; [|done]. unfold checkForWord. simpl.
  destruct (findPlacement g "" []) as [pl|] eqn:E; [|done].
  apply findPlacement_Some_matches in E as (Hin & _ & Hp).
  destruct (Hne pl Hin).
  destruct Hp as [Hp|Hp]; [done|].
  destruct (path pl) as [|x l] using rev_ind; [done|].
  rewrite rev_app_distr in Hp. discriminate.
Qed.

Lemma empty_path_is_not_a_word_witness :
  checkForWord cats catFound [] = Some (setSelectedCells [] catFound).
Proof.
  refine (proj1 (empty_path_is_not_a_word cats catFound _)).
  intros pl Hpl. repeat (apply elem_of_cons in Hpl as [-> | Hpl]; [discriminate|]).
  by apply elem_of_nil in Hpl.
Defined.

(** ** Completion attempts and overlapping placements *)

(** X19. A click on the last selected cell, when that cell is not locked
    and the selected word can be read off the grid, always ends the
    selection and gives feedback: either a word is added and a success
    message shown, or nothing but the message changes and the retry notice
    is shown. *)
Theorem completion_attempt_gives_feedback g st (p : Position) :
  last (selectedCells st) = Some p ->
  isLocked st p = false ->
  is_Some (selectedWord (grid g) (selectedCells st)) ->
  selectedCells (selectCell g st p) = []
  /\ ((foundWords (selectCell g st p) <> foundWords st
       /\ type (message (selectCell g st p)) = Some success)
      \/ (foundWords (selectCell g st p) = foundWords st
          /\ foundPaths (selectCell g st p) = foundPaths st
          /\ timers (selectCell g st p) = timers st
          /\ message (selectCell g st p) = tryAgainMessage)).
Proof.
  intros Hlast Hl [w Hw].
  rewrite selectCell_unlocked, handleCellClick_complete by done.
  unfold checkForWord. rewrite Hw. simpl. split; [done|].
  destruct (newFind st _) as [pl|] eqn:E.
  - left. apply newFind_Some in E as [_ Hn]. simpl. split; [set_solver|].
    unfold successMessage. by destruct (String.eqb _ _).
  - right. destruct (selectedCells st); [done|]. done.
Qed.

Lemma completion_attempt_gives_feedback_witness :
  selectedCells (selectCell cats (selectCells cats initialState [(1, 1); (1, 2)])
                   (1, 2)) = [].
Proof.
  refine (proj1 (completion_attempt_gives_feedback cats
            (selectCells cats initialState [(1, 1); (1, 2)]) (1, 2) _ _ _)).
  - reflexivity.
  - reflexivity.
  - by eexists.
Defined.

Lemma selectCell_find_cases g st (p : Position) :
  (exists candidate pl,
     findPlacement g candidate (selectedCells st) = Some pl
     /\ (word pl ∉ foundWords st)
     /\ selectCell g st p
        = setSelectedCells [] (markFound g st (selectedCells st) pl))
  \/ (foundWords (selectCell g st p) = foundWords st
      /\ foundPaths (selectCell g st p) = foundPaths st).
Proof.
  unfold selectCell, onClick. destruct (isLocked st p); [by right|].
  destruct (handleCellClick g st (fst p) (snd p)) as [st'|] eqn:E; [|by right].
  simpl. apply handleCellClick_cases in E as [E|[cells ->]]; [|by right].
  destruct (decide (foundWords st' = foundWords st)) as [Hfw|Hfw].
  - right. split; [done|].
    apply checkForWord_cases in E as [(pl & Hn & _ & ->)|[-> | ->]];
      [|done|done].
    simpl in Hfw. set_solver.
  - left. apply checkForWord_success in E as (cand & pl & _ & Hf & Hn & ->);
      [|done]. by exists cand, pl.
Qed.

Lemma word_inj_NoDup (l : list WordPlacement) pl pl' :
  NoDup (map word l) -> pl ∈ l -> pl' ∈ l -> word pl = word pl' -> pl = pl'.
Proof.
  induction l as [|x l IH]; intros Hnd Hin Hin' Hw; [by apply elem_of_nil in Hin|].
  simpl in Hnd. apply NoDup_cons in Hnd as [Hx Hnd].
  assert (forall y, y ∈ l -> word y <> word x) as Hne.
  { intros y Hy E. apply Hx. rewrite <- E.
    change (map word l) with (word <$> l). apply list_elem_of_fmap. eauto. }
  apply elem_of_cons in Hin as [-> | Hin], Hin' as [-> | Hin']; [done| | |by apply IH].
  - by destruct (Hne pl' Hin').
  - by destruct (Hne pl Hin).
Qed.

(** With pairwise different placement words, every cell of a found
    placement is locked, and two placements that share a cell are never
    both found. *)
Lemma overlap_invariant g pl1 pl2 (p : Position) (clicks : list Position) :
  NoDup (map word (allPlacements g)) ->
  pl1 ∈ allPlacements g -> pl2 ∈ allPlacements g -> pl1 <> pl2 ->
  p ∈ path pl1 -> p ∈ path pl2 ->
  (forall pl q, pl ∈ allPlacements g ->
     word pl ∈ foundWords (selectCells g initialState clicks) ->
     q ∈ path pl -> isLocked (selectCells g initialState clicks) q = true)
  /\ ~ (word pl1 ∈ foundWords (selectCells g initialState clicks)
        /\ word pl2 ∈ foundWords (selectCells g initialState clicks)).
Proof.
  intros Hnd H1 H2 Hne Hp1 Hp2.
  induction clicks as [|c clicks [HL HN]] using rev_ind.
  - simpl. split; [intros ? ? _ H; set_solver|intros [H _]; set_solver].
  - rewrite selectCells_app. simpl.
    set (st := selectCells g initialState clicks) in *.
    destruct (selectCell_find_cases g st c)
      as [(cand & pl' & Hf & Hn & ->)|[Efw Efp]].
    2:{ unfold isLocked in *. rewrite Efw, Efp. by split. }
    apply findPlacement_Some_matches in Hf as (Hin' & _ & Hpath).
    assert (forall q, q ∈ path pl' -> q ∈ selectedCells st) as Hsel.
    { intros q Hq. destruct Hpath as [-> | ->]; [done|].
      by rewrite list_elem_of_In, <- in_rev, <- list_elem_of_In. }
    assert (forall pl, pl ∈ allPlacements g ->
              word pl ∈ {[word pl']} ∪ foundWords st ->
              pl = pl' \/ word pl ∈ foundWords st) as Hnew.
    { intros pl Hin Hw. apply elem_of_union in Hw as [Hw|Hw]; [left|by right].
      apply elem_of_singleton in Hw.
      by apply (word_inj_NoDup (allPlacements g)). }
    split.
    + intros pl q Hin Hw Hq. apply isLocked_markFound.
      destruct (Hnew pl Hin Hw) as [-> | Hold]; [left; by apply Hsel|].
      right. by apply HL with pl.
    + cbn [foundWords setSelectedCells markFound]. intros [Hw1 Hw2].
      assert (forall pl pl', pl ∈ allPlacements g -> p ∈ path pl ->
                word pl ∈ foundWords st -> p ∈ path pl' ->
                (forall q, q ∈ path pl' -> q ∈ selectedCells st) -> False) as Hclash.
      { intros pl pl0 Hin Hp Hw Hp0 Hsel0.
        apply (selection_unlocked g clicks p); [by apply Hsel0|].
        by apply HL with pl. }
      destruct (Hnew pl1 H1 Hw1) as [-> | Hold1], (Hnew pl2 H2 Hw2) as [E2 | Hold2];
        [by subst | by eapply (Hclash pl2 pl') | subst pl'; by eapply (Hclash pl1 pl2)
        | by apply HN].
Qed.

(** X20. Two different placements that share a cell make the puzzle
    impossible to complete: over any sequence of clicks on a fresh board
    the number of found words stays below the number of placements and the
    completion notice is never scheduled; and when all placement words are
    different, the two placements are never both found. *)
Theorem overlapping_placements_prevent_completion
    g pl1 pl2 (p : Position) (clicks : list Position) :
  pl1 ∈ allPlacements g -> pl2 ∈ allPlacements g -> pl1 <> pl2 ->
  p ∈ path pl1 -> p ∈ path pl2 ->
  (size (foundWords (selectCells g initialState clicks))
   < length (allPlacements g))%nat
  /\ timers (selectCells g initialState clicks) = []
  /\ (NoDup (map word (allPlacements g)) ->
      ~ (word pl1 ∈ foundWords (selectCells g initialState clicks)
         /\ word pl2 ∈ foundWords (selectCells g initialState clicks))).
Proof.
  intros H1 H2 Hne Hp1 Hp2.
  pose proof (selectCells_placedWords g initialState clicks) as Hsub.
  assert (foundWords (selectCells g initialState clicks) ⊆ placedWords g) as Hs
    by (apply Hsub; set_solver).
  assert (size (foundWords (selectCells g initialState clicks))
          < length (allPlacements g))%nat as Hlt.
  { destruct (decide (NoDup (map word (allPlacements g)))) as [Hnd|Hdup].
    - destruct (overlap_invariant g pl1 pl2 p clicks) as [_ HN]; try done.
      assert (foundWords (selectCells g initialState clicks) ⊂ placedWords g) as Hss.
      { split; [done|]. intros Hrev. apply HN.
        split; apply Hrev, elem_of_list_to_set, list_elem_of_fmap; eauto. }
      apply subset_size in Hss. pose proof (size_placedWords g). lia.
    - apply subseteq_size in Hs.
      pose proof (size_list_to_set_lt _ Hdup) as Hd.
      rewrite length_map in Hd. unfold placedWords in Hs. lia. }
  split; [done|]. split.
  - destruct (selectCells_notice g clicks initialState) as [[Ht _]|[_ Heq]];
      [set_solver | left; apply initial_notice | done | lia].
  - intros Hnd. by destruct (overlap_invariant g pl1 pl2 p clicks).
Qed.

Lemma overlapping_placements_prevent_completion_witness :
  timers (selectCells cats initialState
            [(0, 0); (0, 1); (0, 2); (0, 2); (0, 3); (0, 3)]) = [].
Proof.
  refine (proj1 (proj2 (overlapping_placements_prevent_completion cats
            (mkWordPlacement "CATS" catsPath) (mkWordPlacement "CAT" catPath) (0, 0)
            [(0, 0); (0, 1); (0, 2); (0, 2); (0, 3); (0, 3)] _ _ _ _ _))).
  - by left.
  - right. by left.
  - discriminate.
  - by left.
  - by left.
Defined.
